(** * Protocol feature manager (libraries/chain/protocol_feature_manager.cpp)

    A shallow embedding of the feature catalog ([protocol_feature_set]),
    the activation log ([protocol_feature_manager]) and its cursor
    ([const_iterator]), with the properties of the activation log, of the
    rollback on forks and of the catalog's dependency check.

    Conventions.
    - [uint32_t] and [std::size_t] values are numbers of type [N]; where
      the code computes with them ([++_index], a [std::size_t] returned as a
      [uint32_t]) the wrap-around is written out.
    - A [builtin_protocol_feature_t] is the [uint32_t] value of the enum,
      as a [nat], because its only use is as an index of a vector.
    - A C++ exception is an [outcome] [Throws]; the state a method leaves
      behind when it throws is part of its result.  Reading through a null
      pointer or past the end of a vector is [Undefined]. *)

From Stdlib Require Import NArith Lia.
From stdpp Require Import base option list gmap sets strings sorting.

(* stdpp's solvers clear hypotheses by name; the warning is theirs. *)
#[local] Set Warnings "-clear-no-such-hyp".

(** ** Basic types *)

(** [digest_type] is fc::sha256, a 256-bit value. *)
Abbreviation digest_type := N (only parsing).
(** [fc::time_point]. *)
Abbreviation time_point := N (only parsing).
(** [enum class builtin_protocol_feature_t : uint32_t]. *)
Abbreviation builtin_protocol_feature_t := nat (only parsing).

(** The two enumerators the table of this file names, in the order of the
    table; the header that numbers them is not part of the sources. *)
Definition preactivate_feature : builtin_protocol_feature_t := 0.
Definition only_link_to_existing_permission : builtin_protocol_feature_t := 1.

(** The EOS_ASSERT and EOS_THROW sites of the file, one constructor for each
    kind of failure.  In the C++ the first two are
    protocol_feature_validation_exception, [IteratorMisuse] is
    protocol_feature_iterator_exception, all others are
    protocol_feature_exception. *)
Inductive exception : Type :=
  | UnknownBuiltinCode (codename : builtin_protocol_feature_t)
  | UnsatisfiedBuiltinDependencies (missing_dependencies : list string)
  | DuplicateBuiltin
  | MissingDependency (dependency_digest : digest_type)
  | UnexpectedError
  | DuplicateDigest
  | UnrecognizedFeature
  | DoubleInit
  | NotInitialized
  | NonMonotonicActivation
  | UnsupportedFeatureKind
  | BuiltinIndexOutOfRange
  | AlreadyActivated
  | IteratorMisuse (what : string).

(** What a call does: it returns, throws, or has undefined behaviour.
    [LoopBound] is the model's own: a loop written with a bound on its
    iterations reached the bound ([popped_blocks_to_bound] shows that this
    never happens). *)
Inductive outcome (A : Type) : Type :=
  | Returns (a : A)
  | Throws (e : exception)
  | Undefined
  | LoopBound.
Arguments Returns {A} a.
Arguments Throws {A} e.
Arguments Undefined {A}.
Arguments LoopBound {A}.

(** ** A state monad whose exceptions keep the state reached so far *)

Definition M (S A : Type) : Type := S → outcome A * S.

Definition ret {S A} (a : A) : M S A := λ s, (Returns a, s).
Definition bind {S A B} (c : M S A) (k : A → M S B) : M S B :=
  λ s, match c s with
       | (Returns a, s') => k a s'
       | (Throws e, s') => (Throws e, s')
       | (Undefined, s') => (Undefined, s')
       | (LoopBound, s') => (LoopBound, s')
       end.
Definition throw {S A} (e : exception) : M S A := λ s, (Throws e, s).
Definition undefined {S A} : M S A := λ s, (Undefined, s).
Definition loop_bound {S A} : M S A := λ s, (LoopBound, s).
Definition gets {S A} (f : S → A) : M S A := λ s, (Returns (f s), s).
Definition modify {S} (f : S → S) : M S unit := λ s, (Returns tt, f s).

(** [EOS_ASSERT( cond, exception, ... )]. *)
Definition EOS_ASSERT {S} (cond : bool) (e : exception) : M S unit :=
  if cond then ret tt else throw e.

(** [fc::make_scoped_exit( callback )] around [body]; [body] ends with
    [cancel()], so the callback runs exactly when [body] is left by an
    exception. *)
Definition scoped_exit {S} (callback : S → S) (body : M S unit) : M S unit :=
  λ s, match body s with
       | (Returns tt, s') => (Returns tt, s')
       | (Throws e, s') => (Throws e, callback s')
       | (Undefined, s') => (Undefined, s')
       | (LoopBound, s') => (LoopBound, s')
       end.

(** [v[i]] for a [std::vector] and a [std::size_t] index; [None] when the
    index is out of range, where the C++ has undefined behaviour. *)
Definition vector_at {A} (v : list A) (i : N) : option A :=
  if (i <? N.of_nat (length v))%N then v !! N.to_nat i else None.

Declare Scope cpp_scope.
Delimit Scope cpp_scope with cpp.
Notation "'let*' x := c 'in' k" := (bind c (λ x, k))
  (at level 10, x name, c at level 100, k at level 200) : cpp_scope.
Notation "c ';;;' k" := (bind c (λ _, k))
  (at level 100, k at level 200, right associativity) : cpp_scope.
Open Scope cpp_scope.

(** ** The feature catalog *)

Record protocol_feature_subjective_restrictions : Type := {
  sr_earliest_allowed_activation_time : time_point;
  sr_preactivation_required : bool;
  sr_enabled : bool
}.

Record builtin_protocol_feature_spec : Type := {
  codename : string;
  spec_description_digest : digest_type;
  builtin_dependencies : gset builtin_protocol_feature_t;
  spec_subjective_restrictions : protocol_feature_subjective_restrictions
}.

(** [builtin_protocol_feature]; [bf_dependencies] is the flat_set of
    digests in the order a range-for visits it. *)
Record builtin_protocol_feature : Type := {
  bf_description_digest : digest_type;
  bf_dependencies : list digest_type;
  bf_subjective_restrictions : protocol_feature_subjective_restrictions;
  _codename : builtin_protocol_feature_t
}.

Record protocol_feature : Type := {
  feature_digest : digest_type;
  description_digest : digest_type;
  dependencies : list digest_type;
  earliest_allowed_activation_time : time_point;
  preactivation_required : bool;
  enabled : bool;
  builtin_feature : option builtin_protocol_feature_t
}.

(** An iterator into [_recognized_protocol_features], a set ordered and
    searched by [feature_digest], as the index of built-ins stores it: at
    the entry with a digest; [end()] of the set; or [end()] of a set that
    was since moved from.  The move constructor of the set carries the
    iterators at its entries over to the new set, but not [end()]: the
    stored value no longer compares equal to [end()] of the new set, and
    it cannot be dereferenced. *)
Inductive set_iterator : Type :=
  | at_entry (d : digest_type)
  | set_end
  | moved_from_end.

#[global] Instance set_iterator_eq_dec : EqDecision set_iterator.
Proof. solve_decision. Defined.

Record protocol_feature_set : Type := {
  _recognized_protocol_features : gmap digest_type protocol_feature;
  _recognized_builtin_protocol_features : list set_iterator
}.

Definition set_recognized_protocol_features
    (v : gmap digest_type protocol_feature) (pfs : protocol_feature_set) :=
  {| _recognized_protocol_features := v;
     _recognized_builtin_protocol_features := _recognized_builtin_protocol_features pfs |}.

Definition set_recognized_builtin_protocol_features
    (v : list set_iterator) (pfs : protocol_feature_set) :=
  {| _recognized_protocol_features := _recognized_protocol_features pfs;
     _recognized_builtin_protocol_features := v |}.

(** The constructor of [protocol_feature_set]: nothing recognized. *)
Definition empty_protocol_feature_set : protocol_feature_set :=
  {| _recognized_protocol_features := ∅;
     _recognized_builtin_protocol_features := [] |}.

(** The implicit move constructor of [protocol_feature_set]: the set and
    the index are moved, and every [end()] the index holds is left behind
    with the set it was taken from. *)
Definition move_constructed (pfs : protocol_feature_set) : protocol_feature_set :=
  set_recognized_builtin_protocol_features
    ((λ itr, match itr with
             | at_entry d => at_entry d
             | set_end | moved_from_end => moved_from_end
             end) <$> _recognized_builtin_protocol_features pfs)
    pfs.

(** The table [builtin_protocol_feature_codenames] of the source.  The
    second entry leaves its restrictions to the default member
    initializers of the header (not part of the sources), taken here as
    all false and the earliest time. *)
Definition builtin_protocol_feature_codenames
  : gmap builtin_protocol_feature_t builtin_protocol_feature_spec :=
  {[ preactivate_feature :=
       {| codename := "PREACTIVATE_FEATURE";
          spec_description_digest :=
            0x64fe7df32e9b86be2b296b3f81dfd527f84e82b98e363bc97e40bc7a83733310%N;
          builtin_dependencies := ∅;
          spec_subjective_restrictions :=
            {| sr_earliest_allowed_activation_time := 0%N;
               sr_preactivation_required := false;
               sr_enabled := true |} |};
     only_link_to_existing_permission :=
       {| codename := "ONLY_LINK_TO_EXISTING_PERMISSION";
          spec_description_digest :=
            0xf3c3d91c4603cde2397268bfed4e662465293aab10cd9416db0d442b8cec2949%N;
          builtin_dependencies := ∅;
          spec_subjective_restrictions :=
            {| sr_earliest_allowed_activation_time := 0%N;
               sr_preactivation_required := false;
               sr_enabled := false |} |} ]}.

Section Catalog.

(** [add_feature] reads the table of built-ins and hashes the feature
    ([builtin_protocol_feature::digest], a SHA-256 of the packed fields).
    Both are parameters here: the properties hold for every table and
    every hash, and the table of the source is
    [builtin_protocol_feature_codenames]. *)
Variable table : gmap builtin_protocol_feature_t builtin_protocol_feature_spec.
Variable digest : builtin_protocol_feature → digest_type.

(** [make_default_builtin_protocol_feature]: the feature of a built-in as
    its spec gives it, each declared dependency resolved to a digest by
    [handle_dependency] and the digests kept as a flat_set, sorted and
    without repetition. *)
Definition make_default_builtin_protocol_feature
    (codename : builtin_protocol_feature_t)
    (handle_dependency : builtin_protocol_feature_t → digest_type)
  : outcome builtin_protocol_feature :=
  match table !! codename with
  | None => Throws (UnknownBuiltinCode codename)
  | Some s =>
    Returns {| bf_description_digest := spec_description_digest s;
               bf_dependencies :=
                 merge_sort N.le
                   (remove_dups (handle_dependency <$>
                                   merge_sort (≤) (elements (builtin_dependencies s))));
               bf_subjective_restrictions := spec_subjective_restrictions s;
               _codename := codename |}
  end.

(** The loop of [add_feature] over [f.dependencies]: every digest must be
    recognized, and a built-in it names is kept when the spec expects it. *)
Fixpoint satisfied_builtin_dependencies
    (expected_builtin_dependencies : gset builtin_protocol_feature_t)
    (deps : list digest_type)
    (satisfied : gset builtin_protocol_feature_t)
  : M protocol_feature_set (gset builtin_protocol_feature_t) :=
  match deps with
  | [] => ret satisfied
  | d :: rest =>
    let* itr := gets (λ pfs, _recognized_protocol_features pfs !! d) in
    match itr with
    | None => throw (MissingDependency d)
    | Some pf =>
      satisfied_builtin_dependencies expected_builtin_dependencies rest
        match builtin_feature pf with
        | Some b =>
          if decide (b ∈ expected_builtin_dependencies) then {[ b ]} ∪ satisfied
          else satisfied
        | None => satisfied
        end
    end
  end.

(** The names of the missing built-ins, in the order of the set. *)
Fixpoint missing_builtins_with_names {S} (missing_builtins : list builtin_protocol_feature_t)
  : M S (list string) :=
  match missing_builtins with
  | [] => ret []
  | builtin_codename :: rest =>
    match table !! builtin_codename with
    | None => throw UnexpectedError
    | Some s =>
      let* names := missing_builtins_with_names rest in
      ret (codename s :: names)
    end
  end.

Definition add_feature (f : builtin_protocol_feature)
  : M protocol_feature_set protocol_feature :=
  match table !! _codename f with
  | None => throw (UnknownBuiltinCode (_codename f))
  | Some builtin_spec =>
    let indx := _codename f in
    let* builtins := gets _recognized_builtin_protocol_features in
    (if decide (indx < length builtins) then
       EOS_ASSERT (bool_decide (builtins !! indx = Some set_end)) DuplicateBuiltin
     else ret tt);;;
    let feature_digest := digest f in
    let expected_builtin_dependencies := builtin_dependencies builtin_spec in
    let* satisfied :=
      satisfied_builtin_dependencies expected_builtin_dependencies (bf_dependencies f) ∅ in
    (if decide (size satisfied < size expected_builtin_dependencies) then
       let missing_builtins :=
         merge_sort (≤) (elements (expected_builtin_dependencies ∖ satisfied)) in
       let* names := missing_builtins_with_names missing_builtins in
       throw (UnsatisfiedBuiltinDependencies names)
     else ret tt);;;
    let pf :=
      {| feature_digest := feature_digest;
         description_digest := bf_description_digest f;
         dependencies := bf_dependencies f;
         earliest_allowed_activation_time :=
           sr_earliest_allowed_activation_time (bf_subjective_restrictions f);
         preactivation_required := sr_preactivation_required (bf_subjective_restrictions f);
         enabled := sr_enabled (bf_subjective_restrictions f);
         builtin_feature := Some (_codename f) |} in
    (* insert() leaves the set alone when it holds the digest already *)
    let* recognized := gets _recognized_protocol_features in
    let res_second := bool_decide (recognized !! feature_digest = None) in
    (if res_second
     then modify (set_recognized_protocol_features (<[feature_digest := pf]> recognized))
     else ret tt);;;
    EOS_ASSERT res_second DuplicateDigest;;;
    let* builtins := gets _recognized_builtin_protocol_features in
    (if decide (length builtins ≤ indx) then
       modify (set_recognized_builtin_protocol_features
                 (builtins ++ replicate (indx + 1 - length builtins) set_end))
     else ret tt);;;
    modify (λ pfs, set_recognized_builtin_protocol_features
                     (<[indx := at_entry feature_digest]>
                        (_recognized_builtin_protocol_features pfs)) pfs);;;
    ret pf
  end.

End Catalog.

(** ** The queries of the catalog *)

(** [protocol_feature_set::recognized_t]. *)
Inductive recognized_t : Type := unrecognized | disabled | too_early | ready.

Definition is_recognized (pfs : protocol_feature_set) (feature_digest : digest_type)
    (now : time_point) : recognized_t :=
  match _recognized_protocol_features pfs !! feature_digest with
  | None => unrecognized
  | Some itr =>
    if negb (enabled itr) then disabled
    else if (now <? earliest_allowed_activation_time itr)%N then too_early
    else ready
  end.

(** [get_builtin_digest]; the slot of a built-in holds an iterator into the
    set, read here through the digest it points at.  A slot that holds
    [end()] of a set moved from does not compare equal to [end()], and is
    dereferenced. *)
Definition get_builtin_digest (pfs : protocol_feature_set)
    (feature_codename : builtin_protocol_feature_t) : outcome (option digest_type) :=
  let indx := feature_codename in
  if decide (length (_recognized_builtin_protocol_features pfs) ≤ indx) then Returns None
  else
    match _recognized_builtin_protocol_features pfs !! indx with
    | None => Undefined
    | Some set_end => Returns None
    | Some moved_from_end => Undefined
    | Some (at_entry itr) =>
      match _recognized_protocol_features pfs !! itr with
      | None => Undefined
      | Some pf => Returns (Some (feature_digest pf))
      end
    end.

Definition get_protocol_feature (pfs : protocol_feature_set) (feature_digest : digest_type)
  : outcome protocol_feature :=
  match _recognized_protocol_features pfs !! feature_digest with
  | None => Throws UnrecognizedFeature
  | Some pf => Returns pf
  end.

(** [validate_dependencies]; the loop leaves at the first dependency that
    [validator] refuses. *)
Fixpoint validate_each (validator : digest_type → bool) (deps : list digest_type) : bool :=
  match deps with
  | [] => true
  | d :: rest => if negb (validator d) then false else validate_each validator rest
  end.

Definition validate_dependencies (pfs : protocol_feature_set) (feature_digest : digest_type)
    (validator : digest_type → bool) : bool :=
  match _recognized_protocol_features pfs !! feature_digest with
  | None => false
  | Some itr => validate_each validator (dependencies itr)
  end.

(** ** Codenames: the constructor and [reflector_init] *)

(** The two strings that a [builtin_protocol_feature] carries for its
    reflection besides the fields of the record above. *)
Record builtin_protocol_feature_strings : Type := {
  protocol_feature_type : string;
  builtin_feature_codename : string
}.

(** [builtin_protocol_feature::feature_type_string]. *)
Definition feature_type_string : string := "builtin".

(** The two EOS_THROW sites of the [reflector_init] methods. *)
Inductive reflection_error : Type :=
  | UnsupportedProtocolFeatureType (type : string)
  | UnsupportedCodename (codename : string).

(** [builtin_protocol_feature_codename]. *)
Definition builtin_protocol_feature_codename
    (table : gmap builtin_protocol_feature_t builtin_protocol_feature_spec)
    (codename_t : builtin_protocol_feature_t) : outcome string :=
  match table !! codename_t with
  | None => Throws (UnknownBuiltinCode codename_t)
  | Some s => Returns (codename s)
  end.

(** The constructor of [builtin_protocol_feature]: the base class, made
    with [protocol_feature_t::builtin], sets the type string, and the
    codename is the one of the table. *)
Definition construct_builtin_protocol_feature
    (table : gmap builtin_protocol_feature_t builtin_protocol_feature_spec)
    (codename_t : builtin_protocol_feature_t) (description : digest_type)
    (deps : list digest_type) (restrictions : protocol_feature_subjective_restrictions)
  : outcome (builtin_protocol_feature * builtin_protocol_feature_strings) :=
  match table !! codename_t with
  | None => Throws (UnknownBuiltinCode codename_t)
  | Some s =>
    Returns ({| bf_description_digest := description;
                bf_dependencies := deps;
                bf_subjective_restrictions := restrictions;
                _codename := codename_t |},
             {| protocol_feature_type := feature_type_string;
                builtin_feature_codename := codename s |})
  end.

(** [protocol_feature_base::reflector_init]: the type string must be the
    one of a built-in. *)
Definition protocol_feature_base_reflector_init (strings : builtin_protocol_feature_strings)
  : reflection_error + unit :=
  if decide (protocol_feature_type strings = feature_type_string) then inr tt
  else inl (UnsupportedProtocolFeatureType (protocol_feature_type strings)).

(** The loop of [builtin_protocol_feature::reflector_init] over the table,
    an unordered map: [iteration] is the order in which it visits the
    entries, whatever that is. *)
Fixpoint first_with_codename
    (iteration : list (builtin_protocol_feature_t * builtin_protocol_feature_spec))
    (name : string) : option builtin_protocol_feature_t :=
  match iteration with
  | [] => None
  | p :: rest => if decide (name = codename p.2) then Some p.1
                 else first_with_codename rest name
  end.

(** [builtin_protocol_feature::reflector_init]: the [_codename] it sets. *)
Definition builtin_protocol_feature_reflector_init
    (iteration : list (builtin_protocol_feature_t * builtin_protocol_feature_spec))
    (strings : builtin_protocol_feature_strings)
  : reflection_error + builtin_protocol_feature_t :=
  match protocol_feature_base_reflector_init strings with
  | inl e => inl e
  | inr _ =>
    match first_with_codename iteration (builtin_feature_codename strings) with
    | Some c => inr c
    | None => inl (UnsupportedCodename (builtin_feature_codename strings))
    end
  end.

(** ** The activation log *)

Record builtin_protocol_feature_entry : Type := {
  previous : N;
  activation_block_num : N
}.

Record protocol_feature_entry : Type := {
  iterator_to_protocol_feature : digest_type;
  entry_activation_block_num : N
}.

Record protocol_feature_manager : Type := {
  _protocol_feature_set : protocol_feature_set;
  _activated_protocol_features : list protocol_feature_entry;
  _builtin_protocol_features : list builtin_protocol_feature_entry;
  _head_of_builtin_activation_list : N;
  _initialized : bool
}.

Definition set_activated_protocol_features
    (v : list protocol_feature_entry) (m : protocol_feature_manager) :=
  {| _protocol_feature_set := _protocol_feature_set m;
     _activated_protocol_features := v;
     _builtin_protocol_features := _builtin_protocol_features m;
     _head_of_builtin_activation_list := _head_of_builtin_activation_list m;
     _initialized := _initialized m |}.

Definition set_builtin_protocol_features
    (v : list builtin_protocol_feature_entry) (m : protocol_feature_manager) :=
  {| _protocol_feature_set := _protocol_feature_set m;
     _activated_protocol_features := _activated_protocol_features m;
     _builtin_protocol_features := v;
     _head_of_builtin_activation_list := _head_of_builtin_activation_list m;
     _initialized := _initialized m |}.

Definition set_head_of_builtin_activation_list
    (v : N) (m : protocol_feature_manager) :=
  {| _protocol_feature_set := _protocol_feature_set m;
     _activated_protocol_features := _activated_protocol_features m;
     _builtin_protocol_features := _builtin_protocol_features m;
     _head_of_builtin_activation_list := v;
     _initialized := _initialized m |}.

Definition set_initialized (v : bool) (m : protocol_feature_manager) :=
  {| _protocol_feature_set := _protocol_feature_set m;
     _activated_protocol_features := _activated_protocol_features m;
     _builtin_protocol_features := _builtin_protocol_features m;
     _head_of_builtin_activation_list := _head_of_builtin_activation_list m;
     _initialized := v |}.

(** [protocol_feature_set::find], the lookup [activate_feature] uses. *)
Definition find (pfs : protocol_feature_set) (d : digest_type) : option protocol_feature :=
  _recognized_protocol_features pfs !! d.

(** Modelled from the spec: [is_initialized()] is declared in the header,
    which is not part of the sources; it reads the one-shot flag. *)
Definition is_initialized (m : protocol_feature_manager) : bool := _initialized m.

(** The sentinels are declared in the header, which is not part of the
    sources: [not_active] and [no_previous] of
    [builtin_protocol_feature_entry], [end_index] of [const_iterator].  They
    are parameters; a property that needs something of them says so. *)
Class header_constants : Type := {
  not_active : N;
  no_previous : N;
  end_index : N
}.

Section Manager.
Context `{header_constants}.

(** Modelled from the spec: a slot starts with both sentinels, the head of
    the stack starts as NO_PREVIOUS and the manager starts uninitialized
    (the default member initializers are in the header). *)
Definition default_builtin_protocol_feature_entry : builtin_protocol_feature_entry :=
  {| previous := no_previous; activation_block_num := not_active |}.

(** The constructor: [_protocol_feature_set( std::move(pfs) )], and then
    [_builtin_protocol_features.resize( ... size() )] with the size of the
    index of the catalog it now holds. *)
Definition make_protocol_feature_manager (pfs : protocol_feature_set)
  : protocol_feature_manager :=
  let moved := move_constructed pfs in
  {| _protocol_feature_set := moved;
     _activated_protocol_features := [];
     _builtin_protocol_features :=
       replicate (length (_recognized_builtin_protocol_features moved))
                 default_builtin_protocol_feature_entry;
     _head_of_builtin_activation_list := no_previous;
     _initialized := false |}.

Definition is_builtin_activated (m : protocol_feature_manager)
    (feature_codename : builtin_protocol_feature_t) (current_block_num : N) : bool :=
  let indx := feature_codename in
  if decide (length (_builtin_protocol_features m) ≤ indx) then false
  else match _builtin_protocol_features m !! indx with
       | Some e => (activation_block_num e <=? current_block_num)%N
       | None => false
       end.

Definition activate_feature (feature_digest : digest_type) (current_block_num : N)
  : M protocol_feature_manager unit :=
  let* initialized := gets is_initialized in
  EOS_ASSERT initialized NotInitialized;;;
  let* itr := gets (λ m, find (_protocol_feature_set m) feature_digest) in
  match itr with
  | None => throw UnrecognizedFeature
  | Some pf =>
    let* entries := gets _activated_protocol_features in
    match last entries with
    | Some l => EOS_ASSERT (entry_activation_block_num l <=? current_block_num)%N
                           NonMonotonicActivation
    | None => ret tt
    end;;;
    match builtin_feature pf with
    | None => throw UnsupportedFeatureKind
    | Some code =>
      let indx := code in
      let* slots := gets _builtin_protocol_features in
      EOS_ASSERT (bool_decide (indx < length slots)) BuiltinIndexOutOfRange;;;
      match slots !! indx with
      | None => undefined
      | Some e =>
        EOS_ASSERT (activation_block_num e =? not_active)%N AlreadyActivated;;;
        modify (λ m, set_activated_protocol_features
                       (_activated_protocol_features m ++
                          [{| iterator_to_protocol_feature := feature_digest;
                              entry_activation_block_num := current_block_num |}]) m);;;
        modify (λ m, set_builtin_protocol_features
                       (alter (λ e, {| previous := _head_of_builtin_activation_list m;
                                       activation_block_num := activation_block_num e |})
                              indx (_builtin_protocol_features m)) m);;;
        modify (λ m, set_builtin_protocol_features
                       (alter (λ e, {| previous := previous e;
                                       activation_block_num := current_block_num |})
                              indx (_builtin_protocol_features m)) m);;;
        modify (set_head_of_builtin_activation_list (N.of_nat indx))
      end
    end
  end.

(** The first loop of [popped_blocks_to]: pop the stack of built-ins while
    its head was activated after [block_num].  [e] is a reference to the
    slot of the head the iteration started with. *)
Fixpoint pop_builtin_activation_list (bound : nat) (block_num : N)
  : M protocol_feature_manager unit :=
  match bound with
  | O => loop_bound
  | S bound' =>
    let* head := gets _head_of_builtin_activation_list in
    if decide (head = no_previous) then ret tt
    else
      let* slots := gets _builtin_protocol_features in
      match vector_at slots head with
      | None => undefined
      | Some e =>
        if (activation_block_num e <=? block_num)%N then ret tt
        else
          modify (set_head_of_builtin_activation_list (previous e));;;
          modify (λ m, set_builtin_protocol_features
                         (alter (λ e, {| previous := no_previous;
                                         activation_block_num := activation_block_num e |})
                                (N.to_nat head) (_builtin_protocol_features m)) m);;;
          modify (λ m, set_builtin_protocol_features
                         (alter (λ e, {| previous := previous e;
                                         activation_block_num := not_active |})
                                (N.to_nat head) (_builtin_protocol_features m)) m);;;
          pop_builtin_activation_list bound' block_num
      end
  end.

(** The second loop of [popped_blocks_to]: [pop_back] while the last entry
    was activated after [block_num]. *)
Fixpoint pop_activated_protocol_features (bound : nat) (block_num : N)
  : M protocol_feature_manager unit :=
  match bound with
  | O => loop_bound
  | S bound' =>
    let* entries := gets _activated_protocol_features in
    match last entries with
    | None => ret tt
    | Some back =>
      if (block_num <? entry_activation_block_num back)%N then
        modify (set_activated_protocol_features (removelast entries));;;
        pop_activated_protocol_features bound' block_num
      else ret tt
    end
  end.

(** Every iteration of the first loop clears a slot that has a
    predecessor or a block number above [block_num], or it ends the loop
    in the next test; twice the number of slots, and two, bound it. *)
Definition popped_blocks_to (block_num : N) : M protocol_feature_manager unit :=
  let* initialized := gets is_initialized in
  EOS_ASSERT initialized NotInitialized;;;
  let* slots := gets _builtin_protocol_features in
  pop_builtin_activation_list (2 * length slots + 2) block_num;;;
  let* entries := gets _activated_protocol_features in
  pop_activated_protocol_features (S (length entries)) block_num.

(** The loop of [init] over
    [db.get<protocol_state_object>().activated_protocol_features], a
    sequence of pairs of a feature digest and an activation block number. *)
Fixpoint replay (activated_protocol_features : list (digest_type * N))
  : M protocol_feature_manager unit :=
  match activated_protocol_features with
  | [] => ret tt
  | f :: rest => activate_feature f.1 f.2;;; replay rest
  end.

Definition init (db : list (digest_type * N)) : M protocol_feature_manager unit :=
  let* initialized := gets is_initialized in
  EOS_ASSERT (negb initialized) DoubleInit;;;
  scoped_exit (set_initialized false)
    (modify (set_initialized true);;;
     replay db).

(** ** The cursor over the activation log *)

(** [const protocol_feature_manager* _pfm]: null, or the manager the
    cursor was made by. *)
Inductive pfm_pointer : Type := nullptr | this.

Record const_iterator : Type := {
  _pfm : pfm_pointer;
  _index : N
}.

Definition set_index (v : N) (it : const_iterator) : const_iterator :=
  {| _pfm := _pfm it; _index := v |}.

Definition non_null (p : pfm_pointer) : bool :=
  match p with nullptr => false | this => true end.

(** Modelled from the spec: the default constructor and [cend()] are in
    the header; a singular cursor has no manager, and [end()] uses the
    reserved index. *)
Definition singular : const_iterator := {| _pfm := nullptr; _index := end_index |}.
Definition cend : const_iterator := {| _pfm := this; _index := end_index |}.

(** The methods of a cursor take the manager [m] a non-null [_pfm] points
    to.  [get_pointer] has both of its assertions commented out. *)
Definition get_pointer (m : protocol_feature_manager) (it : const_iterator)
  : outcome protocol_feature :=
  match _pfm it with
  | nullptr => Undefined
  | this =>
    match vector_at (_activated_protocol_features m) (_index it) with
    | None => Undefined
    | Some e =>
      match find (_protocol_feature_set m) (iterator_to_protocol_feature e) with
      | None => Undefined
      | Some pf => Returns pf
      end
    end
  end.

(** The result is a [uint32_t], the index a [std::size_t]. *)
Definition activation_ordinal : M const_iterator N :=
  let* pfm := gets _pfm in
  EOS_ASSERT (non_null pfm)
    (IteratorMisuse "called activation_ordinal() on singular iterator");;;
  let* index := gets _index in
  EOS_ASSERT (negb (index =? end_index)%N)
    (IteratorMisuse "called activation_ordinal() on end iterator");;;
  ret (index mod 2 ^ 32)%N.

Definition const_iterator_activation_block_num (m : protocol_feature_manager)
  : M const_iterator N :=
  let* pfm := gets _pfm in
  EOS_ASSERT (non_null pfm)
    (IteratorMisuse "called activation_block_num() on singular iterator");;;
  let* index := gets _index in
  EOS_ASSERT (negb (index =? end_index)%N)
    (IteratorMisuse "called activation_block_num() on end iterator");;;
  match vector_at (_activated_protocol_features m) index with
  | None => undefined
  | Some e => ret (entry_activation_block_num e)
  end.

(** [operator++]; [++_index] is on a 64-bit [std::size_t]. *)
Definition increment (m : protocol_feature_manager) : M const_iterator unit :=
  let* pfm := gets _pfm in
  EOS_ASSERT (non_null pfm) (IteratorMisuse "cannot increment singular iterator");;;
  let* index := gets _index in
  EOS_ASSERT (negb (index =? end_index)%N)
    (IteratorMisuse "cannot increment end iterator");;;
  modify (λ it, set_index ((_index it + 1) mod 2 ^ 64)%N it);;;
  let* index := gets _index in
  if (N.of_nat (length (_activated_protocol_features m)) <=? index)%N
  then modify (set_index end_index)
  else ret tt.

(** [operator--]. *)
Definition decrement (m : protocol_feature_manager) : M const_iterator unit :=
  let* pfm := gets _pfm in
  EOS_ASSERT (non_null pfm) (IteratorMisuse "cannot decrement singular iterator");;;
  let* index := gets _index in
  if (index =? end_index)%N then
    EOS_ASSERT (0 <? N.of_nat (length (_activated_protocol_features m)))%N
      (IteratorMisuse
         "cannot decrement end iterator when no protocol features have been activated");;;
    modify (set_index (N.of_nat (length (_activated_protocol_features m)) - 1)%N)
  else
    EOS_ASSERT (0 <? index)%N
      (IteratorMisuse
         "cannot decrement iterator at the beginning of protocol feature activation list");;;
    modify (λ it, set_index (_index it - 1)%N it).

Definition cbegin (m : protocol_feature_manager) : const_iterator :=
  if decide (length (_activated_protocol_features m) = 0) then cend
  else {| _pfm := this; _index := 0 |}.

Definition at_activation_ordinal (m : protocol_feature_manager) (ordinal : N)
  : const_iterator :=
  if (N.of_nat (length (_activated_protocol_features m)) <=? ordinal)%N then cend
  else {| _pfm := this; _index := ordinal |}.

(** [std::lower_bound( begin, end, value, comp )] as the standard library
    writes it: a binary search over the offsets [first, first + len); [lt x]
    is [comp( x, value )].  [len] at least halves in every iteration, so the
    bound [len] on the iterations is never the reason to stop. *)
Fixpoint std_lower_bound {A} (lt : A → bool) (v : list A)
    (bound first len : nat) : nat :=
  match bound with
  | O => first
  | S bound' =>
    if decide (len = 0) then first
    else
      let half := len / 2 in
      let middle := first + half in
      match v !! middle with
      | None => first
      | Some x =>
        if lt x then std_lower_bound lt v bound' (middle + 1) (len - half - 1)
        else std_lower_bound lt v bound' first half
      end
  end.

(** [std::upper_bound]; [gt x] is [comp( value, x )]. *)
Fixpoint std_upper_bound {A} (gt : A → bool) (v : list A)
    (bound first len : nat) : nat :=
  match bound with
  | O => first
  | S bound' =>
    if decide (len = 0) then first
    else
      let half := len / 2 in
      let middle := first + half in
      match v !! middle with
      | None => first
      | Some x =>
        if gt x then std_upper_bound gt v bound' first half
        else std_upper_bound gt v bound' (middle + 1) (len - half - 1)
      end
  end.

Definition lower_bound (m : protocol_feature_manager) (block_num : N) : const_iterator :=
  let v := _activated_protocol_features m in
  let itr := std_lower_bound (λ lhs, (entry_activation_block_num lhs <? block_num)%N)
                             v (length v) 0 (length v) in
  if decide (itr = length v) then cend
  else {| _pfm := this; _index := N.of_nat itr |}.

Definition upper_bound (m : protocol_feature_manager) (block_num : N) : const_iterator :=
  let v := _activated_protocol_features m in
  let itr := std_upper_bound (λ rhs, (block_num <? entry_activation_block_num rhs)%N)
                             v (length v) 0 (length v) in
  if decide (itr = length v) then cend
  else {| _pfm := this; _index := N.of_nat itr |}.

End Manager.

(** * The vocabulary of the properties *)

(** The entries of a list, newest first, that [popped_blocks_to( h )]
    keeps: it drops entries from the newest while their block number is
    above [h]. *)
Fixpoint surviving {A} (block : A → N) (h : N) (newest_first : list A) : list A :=
  match newest_first with
  | [] => []
  | x :: older => if (h <? block x)%N then surviving block h older else x :: older
  end.

Section Vocabulary.
Context `{header_constants}.

(** The state [activate_feature] leaves when it returns. *)
Definition activated (m : protocol_feature_manager) (d : digest_type) (n : N)
    (indx : nat) : protocol_feature_manager :=
  {| _protocol_feature_set := _protocol_feature_set m;
     _activated_protocol_features :=
       _activated_protocol_features m ++
         [{| iterator_to_protocol_feature := d; entry_activation_block_num := n |}];
     _builtin_protocol_features :=
       <[indx := {| previous := _head_of_builtin_activation_list m;
                    activation_block_num := n |}]> (_builtin_protocol_features m);
     _head_of_builtin_activation_list := N.of_nat indx;
     _initialized := _initialized m |}.

(** The monotonicity test of [activate_feature]. *)
Definition monotone (m : protocol_feature_manager) (n : N) : Prop :=
  ∀ l, last (_activated_protocol_features m) = Some l →
       (entry_activation_block_num l ≤ n)%N.

(** Every way [activate_feature] ends, with the state it leaves. *)
Inductive activate_feature_result (d : digest_type) (n : N)
    (m : protocol_feature_manager)
  : outcome unit * protocol_feature_manager → Prop :=
  | af_not_initialized :
      _initialized m = false →
      activate_feature_result d n m (Throws NotInitialized, m)
  | af_unrecognized :
      _initialized m = true →
      find (_protocol_feature_set m) d = None →
      activate_feature_result d n m (Throws UnrecognizedFeature, m)
  | af_non_monotonic pf l :
      _initialized m = true →
      find (_protocol_feature_set m) d = Some pf →
      last (_activated_protocol_features m) = Some l →
      (n < entry_activation_block_num l)%N →
      activate_feature_result d n m (Throws NonMonotonicActivation, m)
  | af_not_builtin pf :
      _initialized m = true →
      find (_protocol_feature_set m) d = Some pf →
      monotone m n →
      builtin_feature pf = None →
      activate_feature_result d n m (Throws UnsupportedFeatureKind, m)
  | af_out_of_range pf indx :
      _initialized m = true →
      find (_protocol_feature_set m) d = Some pf →
      monotone m n →
      builtin_feature pf = Some indx →
      length (_builtin_protocol_features m) ≤ indx →
      activate_feature_result d n m (Throws BuiltinIndexOutOfRange, m)
  | af_already_activated pf indx e :
      _initialized m = true →
      find (_protocol_feature_set m) d = Some pf →
      monotone m n →
      builtin_feature pf = Some indx →
      _builtin_protocol_features m !! indx = Some e →
      activation_block_num e ≠ not_active →
      activate_feature_result d n m (Throws AlreadyActivated, m)
  | af_activated pf indx e :
      _initialized m = true →
      find (_protocol_feature_set m) d = Some pf →
      monotone m n →
      builtin_feature pf = Some indx →
      _builtin_protocol_features m !! indx = Some e →
      activation_block_num e = not_active →
      activate_feature_result d n m (Returns tt, activated m d n indx).

(** The built-in a log entry activates: the one of the catalog entry its
    iterator points to. *)
Definition entry_builtin (pfs : protocol_feature_set) (e : protocol_feature_entry)
  : option builtin_protocol_feature_t :=
  find pfs (iterator_to_protocol_feature e) ≫= builtin_feature.

(** The log read newest first, each entry as its built-in and block number. *)
Definition activation_stack (m : protocol_feature_manager)
  : list (option builtin_protocol_feature_t * N) :=
  reverse ((λ e, (entry_builtin (_protocol_feature_set m) e,
                  entry_activation_block_num e)) <$> _activated_protocol_features m).

(** (I7) From [head], the [previous] fields visit the slots of [st] in
    order and end in NO_PREVIOUS. *)
Fixpoint linked (slots : list builtin_protocol_feature_entry) (head : N)
    (st : list (option builtin_protocol_feature_t * N)) : Prop :=
  match st with
  | [] => head = no_previous
  | (b, n) :: older =>
    ∃ indx prev,
      b = Some indx ∧ head = N.of_nat indx ∧
      slots !! indx = Some {| previous := prev; activation_block_num := n |} ∧
      linked slots prev older
  end.

(** (I4) The block numbers of the log do not decrease. *)
Definition sorted_by_block (entries : list protocol_feature_entry) : Prop :=
  StronglySorted (λ a b, (entry_activation_block_num a ≤ entry_activation_block_num b)%N)
                 entries.

(** The invariants of a manager: (I4), (I5), (I7), and (I6) in its two
    halves, an activated built-in has a block number and any other slot
    holds the two sentinels; and NO_PREVIOUS is not the index of a slot. *)
Record coherent (m : protocol_feature_manager) : Prop := {
  coherent_sorted : sorted_by_block (_activated_protocol_features m);
  coherent_once : NoDup (activation_stack m).*1;
  coherent_linked :
    linked (_builtin_protocol_features m) (_head_of_builtin_activation_list m)
           (activation_stack m);
  coherent_active : ∀ b n, (b, n) ∈ activation_stack m → n ≠ not_active;
  coherent_inactive : ∀ indx e,
    _builtin_protocol_features m !! indx = Some e →
    Some indx ∉ (activation_stack m).*1 →
    e = default_builtin_protocol_feature_entry;
  coherent_no_previous : ∀ indx,
    indx < length (_builtin_protocol_features m) → N.of_nat indx ≠ no_previous
}.

(** What the first loop of [popped_blocks_to] leaves in the slots, and at
    the head of the stack. *)
Fixpoint unwound (h : N) (slots : list builtin_protocol_feature_entry)
    (st : list (option builtin_protocol_feature_t * N))
  : list builtin_protocol_feature_entry :=
  match st with
  | (Some indx, n) :: older =>
    if (h <? n)%N
    then unwound h (<[indx := default_builtin_protocol_feature_entry]> slots) older
    else slots
  | _ => slots
  end.

Definition stack_head (st : list (option builtin_protocol_feature_t * N)) : N :=
  match st with
  | (Some indx, _) :: _ => N.of_nat indx
  | _ => no_previous
  end.

(** The state [popped_blocks_to( h )] leaves when the manager is coherent. *)
Definition rolled_back (h : N) (m : protocol_feature_manager) : protocol_feature_manager :=
  {| _protocol_feature_set := _protocol_feature_set m;
     _activated_protocol_features :=
       reverse (surviving entry_activation_block_num h
                          (reverse (_activated_protocol_features m)));
     _builtin_protocol_features :=
       unwound h (_builtin_protocol_features m) (activation_stack m);
     _head_of_builtin_activation_list := stack_head (surviving snd h (activation_stack m));
     _initialized := _initialized m |}.

(** A built-in is active when its slot holds a block number. *)
Definition slot_active (m : protocol_feature_manager) (indx : builtin_protocol_feature_t)
  : Prop :=
  ∃ e, _builtin_protocol_features m !! indx = Some e ∧ activation_block_num e ≠ not_active.

(** The log holds an entry for a built-in. *)
Definition in_log (m : protocol_feature_manager) (indx : builtin_protocol_feature_t)
    (e : protocol_feature_entry) : Prop :=
  e ∈ _activated_protocol_features m ∧ entry_builtin (_protocol_feature_set m) e = Some indx.

(** A call of one of the two mutators, as the chain makes them. *)
Inductive call : Type :=
  | Activate (feature_digest : digest_type) (current_block_num : N)
  | Popped (block_num : N).

Definition run_call (c : call) : M protocol_feature_manager unit :=
  match c with
  | Activate d n => activate_feature d n
  | Popped h => popped_blocks_to h
  end.

(** The manager after a sequence of calls; a call that throws leaves the
    state it reached, and the sequence goes on. *)
Definition after_calls (cs : list call) (m : protocol_feature_manager)
  : protocol_feature_manager :=
  foldl (λ m c, (run_call c m).2) m cs.

(** No call activates at the block number NOT_ACTIVE. *)
Definition activates_below_sentinel (c : call) : Prop :=
  match c with
  | Activate _ n => n ≠ not_active
  | Popped _ => True
  end.



(** The cursor at the first ordinal of the log whose entry satisfies [P],
    or the end cursor when no entry does. *)
Definition first_ordinal (P : protocol_feature_entry → Prop)
    (entries : list protocol_feature_entry) (it : const_iterator) : Prop :=
  (∃ (i : nat) e,
      it = {| _pfm := this; _index := N.of_nat i |} ∧
      entries !! i = Some e ∧ P e ∧
      ∀ (j : nat) e', j < i → entries !! j = Some e' → ¬ P e') ∨
  (it = cend ∧ ∀ e, e ∈ entries → ¬ P e).

(** The journal of a manager: what the chain keeps of the log in
    [protocol_state_object], and gives back to [init]. *)
Definition activation_journal (m : protocol_feature_manager) : list (digest_type * N) :=
  (λ e, (iterator_to_protocol_feature e, entry_activation_block_num e))
    <$> _activated_protocol_features m.

(** The place of a cursor in the log: its index, and the length of the
    log for the end cursor. *)
Definition cursor_position (m : protocol_feature_manager) (it : const_iterator) : N :=
  if (_index it =? end_index)%N then N.of_nat (length (_activated_protocol_features m))
  else _index it.

End Vocabulary.

(** The catalog entry [add_feature] makes of a feature, with [digest] as
    the hash, and the catalog it leaves when it returns. *)
Definition protocol_feature_of (digest : builtin_protocol_feature → digest_type)
    (f : builtin_protocol_feature) : protocol_feature :=
  {| feature_digest := digest f;
     description_digest := bf_description_digest f;
     dependencies := bf_dependencies f;
     earliest_allowed_activation_time :=
       sr_earliest_allowed_activation_time (bf_subjective_restrictions f);
     preactivation_required := sr_preactivation_required (bf_subjective_restrictions f);
     enabled := sr_enabled (bf_subjective_restrictions f);
     builtin_feature := Some (_codename f) |}.

Definition with_feature (digest : builtin_protocol_feature → digest_type)
    (f : builtin_protocol_feature) (pfs : protocol_feature_set) : protocol_feature_set :=
  {| _recognized_protocol_features :=
       <[digest f := protocol_feature_of digest f]> (_recognized_protocol_features pfs);
     _recognized_builtin_protocol_features :=
       <[_codename f := at_entry (digest f)]>
         (if decide (length (_recognized_builtin_protocol_features pfs) ≤ _codename f)
          then _recognized_builtin_protocol_features pfs ++
               replicate (_codename f + 1 - length (_recognized_builtin_protocol_features pfs))
                         set_end
          else _recognized_builtin_protocol_features pfs) |}.

(** The built-ins that the digests [deps] resolve to in the catalog. *)
Definition resolved_builtins (pfs : protocol_feature_set) (deps : list digest_type)
  : gset builtin_protocol_feature_t :=
  list_to_set (omap (λ d, _recognized_protocol_features pfs !! d ≫= builtin_feature) deps).

(** ** The vocabulary of the catalog *)

Section CatalogVocabulary.
Variable table : gmap builtin_protocol_feature_t builtin_protocol_feature_spec.
Variable digest : builtin_protocol_feature → digest_type.

(** The slot of a built-in in the index of the catalog is free: the index
    is too short for it, or it holds [end()] of the set. *)
Definition slot_free (pfs : protocol_feature_set) (c : builtin_protocol_feature_t) : Prop :=
  ∀ x, _recognized_builtin_protocol_features pfs !! c = Some x → x = set_end.

(** Every way [add_feature] ends, with the catalog it leaves. *)
Inductive add_feature_result (f : builtin_protocol_feature) (pfs : protocol_feature_set)
  : outcome protocol_feature * protocol_feature_set → Prop :=
  | add_unknown_builtin :
      table !! _codename f = None →
      add_feature_result f pfs (Throws (UnknownBuiltinCode (_codename f)), pfs)
  | add_duplicate_builtin spec itr :
      table !! _codename f = Some spec →
      _recognized_builtin_protocol_features pfs !! _codename f = Some itr →
      itr ≠ set_end →
      add_feature_result f pfs (Throws DuplicateBuiltin, pfs)
  | add_missing_dependency spec d :
      table !! _codename f = Some spec →
      slot_free pfs (_codename f) →
      d ∈ bf_dependencies f →
      _recognized_protocol_features pfs !! d = None →
      add_feature_result f pfs (Throws (MissingDependency d), pfs)
  | add_unsatisfied spec e :
      table !! _codename f = Some spec →
      slot_free pfs (_codename f) →
      Forall (λ d, is_Some (_recognized_protocol_features pfs !! d)) (bf_dependencies f) →
      builtin_dependencies spec ⊈ resolved_builtins pfs (bf_dependencies f) →
      (∃ names, e = UnsatisfiedBuiltinDependencies names) ∨ e = UnexpectedError →
      add_feature_result f pfs (Throws e, pfs)
  | add_duplicate_digest spec :
      table !! _codename f = Some spec →
      slot_free pfs (_codename f) →
      Forall (λ d, is_Some (_recognized_protocol_features pfs !! d)) (bf_dependencies f) →
      builtin_dependencies spec ⊆ resolved_builtins pfs (bf_dependencies f) →
      is_Some (_recognized_protocol_features pfs !! digest f) →
      add_feature_result f pfs (Throws DuplicateDigest, pfs)
  | add_accepted spec :
      table !! _codename f = Some spec →
      slot_free pfs (_codename f) →
      Forall (λ d, is_Some (_recognized_protocol_features pfs !! d)) (bf_dependencies f) →
      builtin_dependencies spec ⊆ resolved_builtins pfs (bf_dependencies f) →
      _recognized_protocol_features pfs !! digest f = None →
      add_feature_result f pfs
        (Returns (protocol_feature_of digest f), with_feature digest f pfs).

(** The invariants of a catalog: an entry is found under its own digest
    (I1); its dependencies are recognized (I2); it is a built-in of the
    table and resolves every built-in its spec declares (I3, as a superset);
    and the index of built-ins and the set of entries name each other. *)
Record catalog_wf (pfs : protocol_feature_set) : Prop := {
  wf_digest : ∀ d pf,
    _recognized_protocol_features pfs !! d = Some pf → feature_digest pf = d;
  wf_closed : ∀ d pf x,
    _recognized_protocol_features pfs !! d = Some pf → x ∈ dependencies pf →
    is_Some (_recognized_protocol_features pfs !! x);
  wf_declared : ∀ d pf,
    _recognized_protocol_features pfs !! d = Some pf →
    ∃ c spec, builtin_feature pf = Some c ∧ table !! c = Some spec ∧
              builtin_dependencies spec ⊆ resolved_builtins pfs (dependencies pf);
  wf_builtin : ∀ d pf c,
    _recognized_protocol_features pfs !! d = Some pf → builtin_feature pf = Some c →
    _recognized_builtin_protocol_features pfs !! c = Some (at_entry d);
  wf_index : ∀ c d,
    _recognized_builtin_protocol_features pfs !! c = Some (at_entry d) →
    ∃ pf, _recognized_protocol_features pfs !! d = Some pf ∧ builtin_feature pf = Some c
}.

(** No slot of the index holds [end()] of a set moved from: the catalog
    was filled where it is, and not moved into a manager since. *)
Definition index_in_place (pfs : protocol_feature_set) : Prop :=
  moved_from_end ∉ _recognized_builtin_protocol_features pfs.

(** The catalog after the calls [add_feature( f )] for the features of
    [fs] in turn, whether they return or throw. *)
Definition after_adds (fs : list builtin_protocol_feature) (pfs : protocol_feature_set)
  : protocol_feature_set :=
  foldl (λ s f, (add_feature table digest f s).2) pfs fs.

End CatalogVocabulary.

(** * The values of the scenarios *)

(** The sentinels as the largest values of [uint32_t] and of a 64-bit
    [std::size_t]. *)
Definition numeric_limits : header_constants :=
  {| not_active := 4294967295;
     no_previous := 18446744073709551615;
     end_index := 18446744073709551615 |}.

Section ScenarioValues.
#[local] Existing Instance numeric_limits.

(** A stand-in for the hash of a feature, distinct on the features below. *)
Definition description_as_digest (f : builtin_protocol_feature) : digest_type :=
  bf_description_digest f.

(** The two built-ins of the table: the first as
    [make_default_builtin_protocol_feature] makes it, the second with the
    first as a dependency, which its spec does not declare. *)
Definition feature_A : builtin_protocol_feature :=
  {| bf_description_digest :=
       0x64fe7df32e9b86be2b296b3f81dfd527f84e82b98e363bc97e40bc7a83733310%N;
     bf_dependencies := [];
     bf_subjective_restrictions :=
       {| sr_earliest_allowed_activation_time := 0%N;
          sr_preactivation_required := false;
          sr_enabled := true |};
     _codename := preactivate_feature |}.

Definition digest_A : digest_type := description_as_digest feature_A.

Definition feature_B_on (dependency : digest_type) : builtin_protocol_feature :=
  {| bf_description_digest :=
       0xf3c3d91c4603cde2397268bfed4e662465293aab10cd9416db0d442b8cec2949%N;
     bf_dependencies := [dependency];
     bf_subjective_restrictions :=
       {| sr_earliest_allowed_activation_time := 0%N;
          sr_preactivation_required := false;
          sr_enabled := false |};
     _codename := only_link_to_existing_permission |}.

Definition feature_B : builtin_protocol_feature := feature_B_on digest_A.

Definition digest_B : digest_type := description_as_digest feature_B.

Definition catalog_A : protocol_feature_set :=
  (add_feature builtin_protocol_feature_codenames description_as_digest feature_A
     empty_protocol_feature_set).2.

Definition catalog_AB : protocol_feature_set :=
  (add_feature builtin_protocol_feature_codenames description_as_digest feature_B
     catalog_A).2.

(** The second built-in without a dependency, as the table declares it,
    and the catalog that holds only it: the slot of the first built-in is
    empty. *)
Definition feature_B_alone : builtin_protocol_feature :=
  {| bf_description_digest := bf_description_digest feature_B;
     bf_dependencies := [];
     bf_subjective_restrictions := bf_subjective_restrictions feature_B;
     _codename := only_link_to_existing_permission |}.

Definition catalog_B : protocol_feature_set :=
  (add_feature builtin_protocol_feature_codenames description_as_digest feature_B_alone
     empty_protocol_feature_set).2.

(** A table in which the second built-in declares the first. *)
Definition table_B_declares_A
  : gmap builtin_protocol_feature_t builtin_protocol_feature_spec :=
  <[only_link_to_existing_permission :=
      {| codename := "ONLY_LINK_TO_EXISTING_PERMISSION";
         spec_description_digest := bf_description_digest feature_B;
         builtin_dependencies := {[ preactivate_feature ]};
         spec_subjective_restrictions := bf_subjective_restrictions feature_B |}]>
    builtin_protocol_feature_codenames.

(** The manager over that catalog, initialized from an empty journal. *)
Definition manager_0 : protocol_feature_manager :=
  (init [] (make_protocol_feature_manager catalog_AB)).2.

(** ... after [activate_feature( digest_A, 100 )]. *)
Definition manager_A : protocol_feature_manager :=
  (activate_feature digest_A 100 manager_0).2.

(** ... and after [activate_feature( digest_B, 100 )], in the same block. *)
Definition manager_AB : protocol_feature_manager :=
  (activate_feature digest_B 100 manager_A).2.

(** ... or after [activate_feature( digest_B, 150 )], in a later block. *)
Definition manager_A_B : protocol_feature_manager :=
  (activate_feature digest_B 150 manager_A).2.

Definition entry (d : digest_type) (n : N) : protocol_feature_entry :=
  {| iterator_to_protocol_feature := d; entry_activation_block_num := n |}.

Definition recognized_A : protocol_feature :=
  {| feature_digest := digest_A;
     description_digest := bf_description_digest feature_A;
     dependencies := [];
     earliest_allowed_activation_time := 0%N;
     preactivation_required := false;
     enabled := true;
     builtin_feature := Some preactivate_feature |}.

Definition recognized_B : protocol_feature :=
  {| feature_digest := digest_B;
     description_digest := bf_description_digest feature_B;
     dependencies := [digest_A];
     earliest_allowed_activation_time := 0%N;
     preactivation_required := false;
     enabled := false;
     builtin_feature := Some only_link_to_existing_permission |}.

(** A log with the block numbers 10, 20, 20 and 30. *)
Definition manager_bounds : protocol_feature_manager :=
  set_activated_protocol_features
    [entry digest_A 10; entry digest_B 20; entry digest_A 20; entry digest_B 30]
    manager_0.

End ScenarioValues.

(** * Properties *)

(** Unfold the monad down to the states it passes. *)
Ltac run_monad :=
  unfold bind, gets, modify, EOS_ASSERT, ret, throw, undefined, loop_bound,
    scoped_exit; simpl.

Lemma vector_at_lookup {A} (v : list A) (i : nat) :
  vector_at v (N.of_nat i) = v !! i.
Proof.
  unfold vector_at. rewrite Nat2N.id.
  destruct (N.ltb_spec (N.of_nat i) (N.of_nat (length v))) as [Hlt|Hge]; [done|].
  symmetry. apply lookup_ge_None. lia.
Qed.

Lemma alter_insert_lookup {A} (f : A → A) (l : list A) (i : nat) (x : A) :
  l !! i = Some x → alter f i l = <[i := f x]> l.
Proof.
  revert i. induction l as [|y l IH]; intros [|i] Hi; simplify_eq/=; [done|].
  f_equal. by apply IH.
Qed.

Lemma filter_keep_drop {A} (P : A → Prop) `{∀ x, Decision (P x)} (keep drop : list A) :
  Forall P keep → Forall (λ x, ¬ P x) drop → filter P (keep ++ drop) = keep.
Proof.
  intros Hkeep Hdrop. rewrite filter_app.
  assert (filter P drop = []) as ->.
  { induction Hdrop as [|x l Hx _ IH]; [done|]. by rewrite filter_cons_False. }
  rewrite app_nil_r. induction Hkeep as [|x l Hx _ IH]; [done|].
  rewrite filter_cons_True by done. by rewrite IH.
Qed.

(** What the move of a catalog keeps: the set, the length of the index and
    the slots that point at an entry. *)
Lemma length_move_constructed pfs :
  length (_recognized_builtin_protocol_features (move_constructed pfs))
  = length (_recognized_builtin_protocol_features pfs).
Proof. simpl. by rewrite length_fmap. Qed.

Lemma move_constructed_at_entry pfs (c : nat) d :
  _recognized_builtin_protocol_features (move_constructed pfs) !! c = Some (at_entry d) ↔
  _recognized_builtin_protocol_features pfs !! c = Some (at_entry d).
Proof.
  simpl. rewrite list_lookup_fmap.
  destruct (_recognized_builtin_protocol_features pfs !! c) as [[d'| |]|]; simpl;
    naive_solver.
Qed.

(** ** The ways [activate_feature] ends *)

Section ActivateFeature.
Context `{header_constants}.

Lemma activate_feature_cases d n m :
  activate_feature_result d n m (activate_feature d n m).
Proof.
  unfold activate_feature. run_monad. unfold is_initialized.
  destruct (_initialized m) eqn:Hinit; simpl; [|by constructor].
  destruct (find (_protocol_feature_set m) d) as [pf|] eqn:Hfind; simpl;
    [|by constructor].
  destruct (last (_activated_protocol_features m)) as [l|] eqn:Hl; simpl;
    [destruct (N.leb_spec (entry_activation_block_num l) n) as [Hle|Hlt]; simpl;
       [|by eapply af_non_monotonic] |].
  all: assert (Hmono : monotone m n) by (intros ? ?; by simplify_eq).
  all: destruct (builtin_feature pf) as [indx|] eqn:Hb; [|by eapply af_not_builtin].
  all: case_bool_decide as Hlt; simpl;
    [|eapply af_out_of_range; eauto; lia].
  all: destruct (lookup_lt_is_Some_2 _ _ Hlt) as [e He]; rewrite He.
  all: destruct (N.eqb_spec (activation_block_num e) not_active) as [Heq|Hne]; simpl;
    [|by eapply af_already_activated].
  all: match goal with |- activate_feature_result _ _ _ (_, ?X) =>
         replace X with (activated m d n indx); [by eapply af_activated|] end.
  all: unfold activated, set_head_of_builtin_activation_list,
         set_builtin_protocol_features, set_activated_protocol_features; simpl.
  all: f_equal; rewrite list_alter_alter_eq;
         by rewrite (alter_insert_lookup _ _ _ _ He).
Qed.

(** When [activate_feature] does not return it throws, and the manager is
    as it was. *)
Lemma activate_feature_throws_unchanged d n m o m' :
  activate_feature d n m = (o, m') → o ≠ Returns tt → (∃ e, o = Throws e) ∧ m' = m.
Proof.
  intros Hrun Hfail. pose proof (activate_feature_cases d n m) as Hcases.
  rewrite Hrun in Hcases. inversion Hcases; subst; try done; eauto.
Qed.

(** C10.  When [activate_feature] does not return it throws one of its six
    exceptions, and the manager is left as it was: the entries, the slots of
    the built-ins and the head of their stack (and the rest of the state). *)
Theorem activate_feature_atomic_on_failure d n m o m' :
  activate_feature d n m = (o, m') →
  o ≠ Returns tt →
  (∃ e, o = Throws e ∧
        e ∈ [NotInitialized; UnrecognizedFeature; NonMonotonicActivation;
             UnsupportedFeatureKind; BuiltinIndexOutOfRange; AlreadyActivated]) ∧
  _activated_protocol_features m' = _activated_protocol_features m ∧
  _builtin_protocol_features m' = _builtin_protocol_features m ∧
  _head_of_builtin_activation_list m' = _head_of_builtin_activation_list m ∧
  m' = m.
Proof.
  intros Hrun Hfail. pose proof (activate_feature_cases d n m) as Hcases.
  rewrite Hrun in Hcases.
  inversion Hcases; subst; try done;
    (split; [eexists; split; [done|set_solver]|done]).
Qed.

(** C6, amended.  On an initialized manager and for a recognized digest,
    [activate_feature] throws the non-monotonic exception exactly when the
    log has a last entry and [n] is below its block number; with an empty
    log, or [n] at least that number, it does not. *)
Theorem activate_feature_non_monotonic d n m pf :
  is_initialized m = true →
  find (_protocol_feature_set m) d = Some pf →
  (activate_feature d n m).1 = Throws NonMonotonicActivation ↔
  ∃ l, last (_activated_protocol_features m) = Some l ∧
       (n < entry_activation_block_num l)%N.
Proof.
  unfold is_initialized. intros Hinit Hfind.
  pose proof (activate_feature_cases d n m) as Hcases.
  destruct (activate_feature d n m) as [o m'] eqn:Hrun. simpl.
  split.
  - intros ->. inversion Hcases; subst; eauto.
  - intros (l & Hl & Hlt).
    inversion Hcases; subst; simplify_eq/=; try congruence.
    all: match goal with Hm : monotone _ _ |- _ => specialize (Hm _ Hl); lia end.
Qed.

(** C7, amended.  Once the tests before it pass (initialized manager,
    recognized built-in digest with a slot, [n] not below the last entry),
    [activate_feature] throws the already-activated exception exactly when
    the slot is not NOT_ACTIVE.  When the slot is NOT_ACTIVE the activation
    returns; and when it was made at a block number other than NOT_ACTIVE,
    activating the same digest again throws: already-activated when the new
    block number is not below the first, non-monotonic otherwise. *)
Theorem activate_feature_already_activated d n m pf indx e :
  is_initialized m = true →
  find (_protocol_feature_set m) d = Some pf →
  builtin_feature pf = Some indx →
  _builtin_protocol_features m !! indx = Some e →
  monotone m n →
  ((activate_feature d n m).1 = Throws AlreadyActivated ↔
   activation_block_num e ≠ not_active) ∧
  (activation_block_num e = not_active →
   ∃ m1, activate_feature d n m = (Returns tt, m1) ∧
         (n ≠ not_active →
          ∀ n', ∃ x, activate_feature d n' m1 = (Throws x, m1) ∧
                     ((n ≤ n')%N → x = AlreadyActivated) ∧
                     ((n' < n)%N → x = NonMonotonicActivation))).
Proof.
  unfold is_initialized. intros Hinit Hfind Hb He Hmono.
  pose proof (activate_feature_cases d n m) as Hcases.
  destruct (activate_feature d n m) as [o m'] eqn:Hrun. simpl.
  inversion Hcases; subst o; simplify_eq/=; try congruence.
  - match goal with Hl : last _ = Some _ |- _ => specialize (Hmono _ Hl) end. lia.
  - apply lookup_lt_Some in He. lia.
  - split; [naive_solver|]. intros Hnot. congruence.
  - split; [naive_solver|]. intros _.
    eexists. split; [done|]. intros Hn n'.
    pose proof (activate_feature_cases d n' (activated m d n indx)) as Hcases'.
    assert (Hlast : last (_activated_protocol_features (activated m d n indx)) =
                    Some {| iterator_to_protocol_feature := d;
                            entry_activation_block_num := n |})
      by (simpl; apply last_snoc).
    assert (Hslot : _builtin_protocol_features (activated m d n indx) !! indx =
                    Some {| previous := _head_of_builtin_activation_list m;
                            activation_block_num := n |}).
    { simpl. apply list_lookup_insert_eq. by eapply lookup_lt_Some. }
    destruct (activate_feature d n' (activated m d n indx)) as [o' m''] eqn:Hrun'.
    inversion Hcases'; subst o'; simplify_eq/=; try congruence.
    + eexists; split; [done|]. split; [lia|done].
    + apply lookup_lt_Some in Hslot. simpl in Hslot. lia.
    + eexists; split; [done|]. split; [done|].
      match goal with Hm : monotone _ _ |- _ => specialize (Hm _ Hlast); simpl in Hm end.
      lia.
Qed.

End ActivateFeature.

(** ** The invariants of the activation log and the rollback *)

Section Coherence.
Context `{header_constants}.

Lemma linked_insert slots head st (indx : nat) x :
  Some indx ∉ st.*1 → linked slots head st → linked (<[indx := x]> slots) head st.
Proof.
  revert head. induction st as [|[b n] st IH]; intros head Hnotin Hl; [done|].
  destruct Hl as (i & prev & -> & -> & Hi & Hl). simpl in Hnotin.
  apply not_elem_of_cons in Hnotin as [Hne Hnotin].
  exists i, prev. split_and!; [done|done| |by apply IH].
  rewrite list_lookup_insert_ne; [done|congruence].
Qed.

Lemma linked_lookup slots head st indx n :
  linked slots head st → (Some indx, n) ∈ st →
  ∃ prev, slots !! indx = Some {| previous := prev; activation_block_num := n |}.
Proof.
  revert head. induction st as [|[b n'] st IH]; intros head Hl Hin.
  - by apply elem_of_nil in Hin.
  - destruct Hl as (i & prev & -> & -> & Hi & Hl).
    apply elem_of_cons in Hin as [[= -> ->]|Hin]; eauto.
Qed.

Lemma slots_alter_default (slots : list builtin_protocol_feature_entry) (indx : nat) e :
  slots !! indx = Some e →
  alter (λ e, {| previous := previous e; activation_block_num := not_active |}) indx
    (alter (λ e, {| previous := no_previous;
                    activation_block_num := activation_block_num e |}) indx slots)
  = <[indx := default_builtin_protocol_feature_entry]> slots.
Proof.
  intros He. rewrite list_alter_alter_eq. by rewrite (alter_insert_lookup _ _ _ _ He).
Qed.

(** The first loop pops exactly the slots of the entries above [block_num]. *)
Lemma pop_builtin_activation_list_linked st : ∀ bound block_num m,
  linked (_builtin_protocol_features m) (_head_of_builtin_activation_list m) st →
  NoDup st.*1 →
  (∀ indx, indx < length (_builtin_protocol_features m) → N.of_nat indx ≠ no_previous) →
  length st < bound →
  pop_builtin_activation_list bound block_num m =
    (Returns tt,
     set_builtin_protocol_features (unwound block_num (_builtin_protocol_features m) st)
       (set_head_of_builtin_activation_list (stack_head (surviving snd block_num st)) m)).
Proof.
  induction st as [|[b n] st IH]; intros bound h m Hl Hnd Hnp Hb;
    (destruct bound as [|bound]; [simpl in Hb; lia|]); simpl in *.
  - run_monad. rewrite decide_True by done. destruct m; simpl in *. by subst.
  - destruct Hl as (i & prev & -> & Hhead & Hi & Hl).
    apply NoDup_cons in Hnd as [Hnotin Hnd].
    run_monad. rewrite Hhead.
    rewrite decide_False by (apply Hnp; by eapply lookup_lt_Some).
    rewrite vector_at_lookup, Hi. simpl.
    destruct (N.leb_spec n h) as [Hle|Hgt]; simpl.
    + destruct (N.ltb_spec h n); [lia|]. simpl. destruct m; simpl in *. by subst.
    + destruct (N.ltb_spec h n); [|lia]. rewrite Nat2N.id.
      rewrite (slots_alter_default _ _ _ Hi).
      rewrite IH; simpl; [done|by apply linked_insert|done| |lia].
      intros indx. rewrite length_insert. apply Hnp.
Qed.

(** The second loop drops exactly the entries above [block_num]. *)
Lemma pop_activated_protocol_features_returns bound block_num m :
  length (_activated_protocol_features m) < bound →
  pop_activated_protocol_features bound block_num m =
    (Returns tt,
     set_activated_protocol_features
       (reverse (surviving entry_activation_block_num block_num
                           (reverse (_activated_protocol_features m)))) m).
Proof.
  remember (_activated_protocol_features m) as es eqn:Hes.
  revert bound m Hes. induction es as [|x es IH] using rev_ind; intros bound m Hes Hb;
    (destruct bound as [|bound]; [simpl in Hb; lia|]); simpl.
  - run_monad. rewrite <- Hes. simpl. destruct m; simpl in *. by subst.
  - run_monad. rewrite <- Hes. rewrite last_snoc, reverse_snoc. simpl.
    destruct (N.ltb_spec block_num (entry_activation_block_num x)); simpl.
    + rewrite removelast_last. rewrite (IH bound); simpl; [done|done|].
      rewrite length_app in Hb. simpl in Hb. lia.
    + rewrite reverse_cons, reverse_involutive. destruct m; simpl in *. by subst.
Qed.

Lemma surviving_suffix {A} (block : A → N) h (l : list A) :
  ∃ dropped, l = dropped ++ surviving block h l ∧
             Forall (λ x, (h < block x)%N) dropped.
Proof.
  induction l as [|x l (dropped & IH & Hd)]; simpl.
  - by exists [].
  - destruct (N.ltb_spec h (block x)).
    + exists (x :: dropped). split; [by rewrite IH at 1|by constructor].
    + by exists [].
Qed.

Lemma surviving_fmap {A B} (f : A → B) (block : B → N) h (l : list A) :
  surviving block h (f <$> l) = f <$> surviving (block ∘ f) h l.
Proof.
  induction l as [|x l IH]; simpl; [done|].
  by destruct (h <? block (f x))%N.
Qed.

Lemma activation_stack_rolled_back h m :
  activation_stack (rolled_back h m) = surviving snd h (activation_stack m).
Proof.
  unfold activation_stack. simpl.
  rewrite <- !fmap_reverse, reverse_involutive. by rewrite surviving_fmap.
Qed.

Lemma sorted_by_block_last es l x :
  sorted_by_block es → last es = Some l → x ∈ es →
  (entry_activation_block_num x ≤ entry_activation_block_num l)%N.
Proof.
  intros Hs Hl Hx. apply last_Some in Hl as [es' ->].
  apply elem_of_app in Hx as [Hx|Hx%list_elem_of_singleton]; [|subst; lia].
  unfold sorted_by_block in Hs.
  apply (StronglySorted_app_1_elem_of _ es' [l] x l Hs Hx). by left.
Qed.

(** Newest first, the block numbers of a sorted log do not increase. *)
Lemma activation_stack_descending m :
  sorted_by_block (_activated_protocol_features m) →
  StronglySorted (λ x y, (y.2 ≤ x.2)%N) (activation_stack m).
Proof.
  unfold activation_stack, sorted_by_block.
  induction (_activated_protocol_features m) as [|e es IH]; intros Hs.
  - constructor.
  - apply StronglySorted_inv in Hs as [Hs He].
    rewrite fmap_cons, reverse_cons. apply StronglySorted_app_2; [|by apply IH|].
    + intros x1 x2 Hx1 ->%list_elem_of_singleton. simpl.
      apply elem_of_reverse, list_elem_of_fmap in Hx1 as (e' & -> & He'). simpl.
      rewrite Forall_forall in He. by apply He.
    + repeat constructor.
Qed.

Lemma surviving_below h (st : list (option builtin_protocol_feature_t * N)) x :
  StronglySorted (λ x y, (y.2 ≤ x.2)%N) st → x ∈ surviving snd h st → (x.2 ≤ h)%N.
Proof.
  induction 1 as [|y st Hs IH Hy]; simpl; [by intros ?%elem_of_nil|].
  destruct (N.ltb_spec h y.2) as [|Hle]; [done|].
  intros [->|Hx]%elem_of_cons; [done|].
  rewrite Forall_forall in Hy. specialize (Hy _ Hx). lia.
Qed.

Lemma length_unwound h st : ∀ slots, length (unwound h slots st) = length slots.
Proof.
  induction st as [|[[i|] n] st IH]; intros slots; simpl; try done.
  destruct (h <? n)%N; [|done]. by rewrite IH, length_insert.
Qed.

Lemma unwound_lookup_default h st : ∀ slots (j : nat),
  slots !! j = Some default_builtin_protocol_feature_entry →
  unwound h slots st !! j = Some default_builtin_protocol_feature_entry.
Proof.
  induction st as [|[[i|] n] st IH]; intros slots j Hj; simpl; try done.
  destruct (h <? n)%N; [|done]. apply IH.
  destruct (decide (i = j)) as [->|Hne].
  - apply list_lookup_insert_eq. by eapply lookup_lt_Some.
  - by rewrite list_lookup_insert_ne.
Qed.

Lemma unwound_lookup_other h st : ∀ slots (j : nat),
  Some j ∉ st.*1 → unwound h slots st !! j = slots !! j.
Proof.
  induction st as [|[[i|] n] st IH]; intros slots j Hj; simpl; try done.
  simpl in Hj. apply not_elem_of_cons in Hj as [Hne Hj].
  destruct (h <? n)%N; [|done]. rewrite IH by done.
  rewrite list_lookup_insert_ne; [done|congruence].
Qed.

Lemma unwound_lookup_dropped h st : ∀ slots head (j : nat),
  linked slots head st → NoDup st.*1 →
  Some j ∈ st.*1 → Some j ∉ (surviving snd h st).*1 →
  unwound h slots st !! j = Some default_builtin_protocol_feature_entry.
Proof.
  induction st as [|[b n] st IH]; intros slots head j Hl Hnd Hin Hout; simpl in *.
  - by apply elem_of_nil in Hin.
  - destruct Hl as (i & prev & -> & -> & Hi & Hl).
    apply NoDup_cons in Hnd as [Hnotin Hnd].
    destruct (N.ltb_spec h n) as [Hlt|Hle]; [|done].
    destruct (decide (i = j)) as [->|Hne].
    + apply unwound_lookup_default, list_lookup_insert_eq. by eapply lookup_lt_Some.
    + apply elem_of_cons in Hin as [?|Hin]; [congruence|].
      eapply IH; [|done|done|done]. by apply linked_insert.
Qed.

Lemma unwound_linked h st : ∀ slots head,
  linked slots head st → NoDup st.*1 →
  linked (unwound h slots st) (stack_head (surviving snd h st)) (surviving snd h st).
Proof.
  induction st as [|[b n] st IH]; intros slots head Hl Hnd; simpl in *; [done|].
  destruct Hl as (i & prev & -> & -> & Hi & Hl).
  apply NoDup_cons in Hnd as [Hnotin Hnd]. simpl.
  destruct (N.ltb_spec h n) as [Hlt|Hle].
  - eapply IH; [|done]. by apply linked_insert.
  - simpl. eauto 10.
Qed.

(** Rolling back keeps the invariants. *)
Lemma rolled_back_coherent h m : coherent m → coherent (rolled_back h m).
Proof.
  intros [Hs Hnd Hl Ha Hi Hnp].
  destruct (surviving_suffix snd h (activation_stack m)) as (dropped & Hst & Hdropped).
  split.
  - simpl. unfold sorted_by_block in *.
    destruct (surviving_suffix entry_activation_block_num h
                (reverse (_activated_protocol_features m))) as (d & Hd & _).
    apply (f_equal reverse) in Hd. rewrite reverse_involutive, reverse_app in Hd.
    rewrite Hd in Hs. by apply StronglySorted_app_1_l in Hs.
  - rewrite activation_stack_rolled_back. rewrite Hst, fmap_app in Hnd.
    by apply NoDup_app in Hnd as (_ & _ & Hnd).
  - rewrite activation_stack_rolled_back. simpl. by eapply unwound_linked.
  - intros b n. rewrite activation_stack_rolled_back. intros Hin.
    apply (Ha b). rewrite Hst. apply elem_of_app. by right.
  - intros indx e. rewrite activation_stack_rolled_back. simpl. intros He Hout.
    destruct (decide (Some indx ∈ (activation_stack m).*1)) as [Hin|Hnotin].
    + rewrite (unwound_lookup_dropped _ _ _ _ _ Hl Hnd Hin Hout) in He. congruence.
    + rewrite unwound_lookup_other in He by done. by eapply Hi.
  - intros indx. simpl. rewrite length_unwound. apply Hnp.
Qed.

(** (I6) In a coherent manager a slot holds a block number exactly when
    the log has an entry for its built-in. *)
Lemma coherent_slot_active m indx :
  coherent m → slot_active m indx ↔ ∃ e, in_log m indx e.
Proof.
  intros [Hs Hnd Hl Ha Hi Hnp]. unfold slot_active, in_log. split.
  - intros (e & He & Hact).
    destruct (decide (Some indx ∈ (activation_stack m).*1)) as [Hin|Hnotin].
    + unfold activation_stack in Hin.
      apply list_elem_of_fmap in Hin as ([b n] & Hb & Hin). simpl in Hb. subst b.
      apply elem_of_reverse, list_elem_of_fmap in Hin as (x & [= Hx ->] & Hin). eauto.
    + specialize (Hi _ _ He Hnotin). by subst e.
  - intros (e & Hin & Hb).
    assert (Hst : (Some indx, entry_activation_block_num e) ∈ activation_stack m).
    { unfold activation_stack. apply elem_of_reverse, list_elem_of_fmap.
      exists e. by rewrite Hb. }
    destruct (linked_lookup _ _ _ _ _ Hl Hst) as [prev Hslot].
    eexists. split; [done|]. simpl. by eapply Ha.
Qed.

Lemma linked_in_range slots head st b :
  linked slots head st → b ∈ st.*1 → ∃ indx : nat, b = Some indx ∧ indx < length slots.
Proof.
  revert head. induction st as [|[b' n] st IH]; intros head Hl Hin; simpl in *.
  - by apply elem_of_nil in Hin.
  - destruct Hl as (i & prev & -> & -> & Hi & Hl).
    apply elem_of_cons in Hin as [->|Hin]; [|by eapply IH].
    exists i. split; [done|]. by eapply lookup_lt_Some.
Qed.

(** The stack holds no more built-ins than there are slots. *)
Lemma linked_length slots head st :
  linked slots head st → NoDup st.*1 → length st ≤ length slots.
Proof.
  intros Hl Hnd.
  assert (Hsub : st.*1 ⊆+ Some <$> seq 0 (length slots)).
  { apply NoDup_submseteq; [done|]. intros b Hb.
    destruct (linked_in_range _ _ _ _ Hl Hb) as (indx & -> & Hlt).
    apply list_elem_of_fmap. exists indx. split; [done|].
    apply elem_of_seq. lia. }
  apply submseteq_length in Hsub.
  by rewrite !length_fmap, length_seq in Hsub.
Qed.

(** [popped_blocks_to] on an initialized manager whose stack of built-ins
    is the log. *)
Lemma popped_blocks_to_linked h m :
  linked (_builtin_protocol_features m) (_head_of_builtin_activation_list m)
         (activation_stack m) →
  NoDup (activation_stack m).*1 →
  (∀ indx, indx < length (_builtin_protocol_features m) → N.of_nat indx ≠ no_previous) →
  is_initialized m = true →
  popped_blocks_to h m = (Returns tt, rolled_back h m).
Proof.
  intros Hl Hnd Hnp Hinit. unfold popped_blocks_to.
  unfold bind at 1, gets at 1. rewrite Hinit.
  unfold bind at 1, EOS_ASSERT at 1, ret at 1.
  unfold bind at 1, gets at 1. unfold bind at 1.
  rewrite (pop_builtin_activation_list_linked (activation_stack m)); try done.
  2:{ pose proof (linked_length _ _ _ Hl Hnd). lia. }
  unfold bind at 1, gets at 1.
  rewrite pop_activated_protocol_features_returns by (simpl; lia).
  done.
Qed.

Lemma popped_blocks_to_coherent h m :
  coherent m → is_initialized m = true →
  popped_blocks_to h m = (Returns tt, rolled_back h m).
Proof. intros []. by apply popped_blocks_to_linked. Qed.

(** C2.  On an initialized manager that satisfies the invariants,
    [popped_blocks_to( h )] returns; every entry that remains was activated
    at or before [h] (the entries kept are the entries of the log at or
    before [h], in order); a slot holds a block number exactly when the log
    still has an entry for its built-in; and the invariants hold again. *)
Theorem popped_blocks_to_invariant h m :
  coherent m → is_initialized m = true →
  ∃ m', popped_blocks_to h m = (Returns tt, m') ∧
        (∀ e, e ∈ _activated_protocol_features m' →
              (entry_activation_block_num e ≤ h)%N) ∧
        _activated_protocol_features m' =
          filter (λ e, (entry_activation_block_num e ≤ h)%N)
                 (_activated_protocol_features m) ∧
        (∀ indx, slot_active m' indx ↔ ∃ e, in_log m' indx e) ∧
        coherent m'.
Proof.
  intros Hc Hinit. exists (rolled_back h m).
  pose proof (rolled_back_coherent h m Hc) as Hc'.
  assert (Hbelow : ∀ e, e ∈ _activated_protocol_features (rolled_back h m) →
                        (entry_activation_block_num e ≤ h)%N).
  { intros e He.
    assert (Hst : (entry_builtin (_protocol_feature_set m) e,
                   entry_activation_block_num e) ∈ activation_stack (rolled_back h m)).
    { unfold activation_stack. apply elem_of_reverse, list_elem_of_fmap. by exists e. }
    rewrite activation_stack_rolled_back in Hst.
    apply surviving_below in Hst; [done|].
    apply activation_stack_descending, Hc. }
  split_and!; [by apply popped_blocks_to_coherent|done| |
               intros; by apply coherent_slot_active|done].
  simpl.
  destruct (surviving_suffix entry_activation_block_num h
              (reverse (_activated_protocol_features m))) as (d & Hd & Hdropped).
  apply (f_equal reverse) in Hd. rewrite reverse_involutive, reverse_app in Hd.
  rewrite Hd at 2. symmetry. apply filter_keep_drop.
  - apply Forall_forall. intros e He. by apply Hbelow.
  - apply Forall_reverse. eapply Forall_impl; [done|]. simpl. lia.
Qed.

End Coherence.

(** ** The invariants hold in every manager the calls reach *)

Section Reachable.
Context `{header_constants}.

Lemma activation_stack_activated m d n indx pf :
  find (_protocol_feature_set m) d = Some pf → builtin_feature pf = Some indx →
  activation_stack (activated m d n indx) = (Some indx, n) :: activation_stack m.
Proof.
  intros Hfind Hb. unfold activation_stack. simpl.
  rewrite fmap_app, reverse_app. simpl.
  unfold entry_builtin at 1. simpl. by rewrite Hfind, <- Hb.
Qed.

(** A successful activation at a block number other than NOT_ACTIVE keeps
    the invariants. *)
Lemma activate_feature_coherent d n m m' :
  coherent m → n ≠ not_active →
  activate_feature d n m = (Returns tt, m') → coherent m'.
Proof.
  intros [Hs Hnd Hl Ha Hi Hnp] Hn Hrun.
  pose proof (activate_feature_cases d n m) as Hcases. rewrite Hrun in Hcases.
  inversion Hcases as [| | | | | |pf indx e Hinit Hfind Hmono Hb He Hblock]; subst.
  assert (Hfresh : Some indx ∉ (activation_stack m).*1).
  { intros Hin. apply list_elem_of_fmap in Hin as ([b n'] & Hb' & Hin).
    simpl in Hb'. subst b.
    destruct (linked_lookup _ _ _ _ _ Hl Hin) as [prev Hslot].
    rewrite He in Hslot. injection Hslot as ->. simpl in Hblock.
    by apply (Ha _ _ Hin). }
  split; rewrite ?(activation_stack_activated _ _ _ _ _ Hfind Hb); simpl.
  - apply StronglySorted_app_2; [|done|repeat constructor].
    intros x1 x2 Hx1 ->%list_elem_of_singleton. simpl.
    destruct (last (_activated_protocol_features m)) as [l|] eqn:Hlast.
    + pose proof (sorted_by_block_last _ _ _ Hs Hlast Hx1).
      specialize (Hmono l Hlast). lia.
    + apply last_None in Hlast. rewrite Hlast in Hx1. by apply elem_of_nil in Hx1.
  - by apply NoDup_cons.
  - exists indx, (_head_of_builtin_activation_list m). split_and!; [done|done| |].
    + apply list_lookup_insert_eq. by eapply lookup_lt_Some.
    + by apply linked_insert.
  - intros b n' [[= -> ->]|Hin]%elem_of_cons; [done|by eapply Ha].
  - intros j e' He' [Hne Hout]%not_elem_of_cons.
    rewrite list_lookup_insert_ne in He' by congruence. by eapply Hi.
  - intros j. rewrite length_insert. apply Hnp.
Qed.

(** The manager the constructor makes satisfies the invariants when
    NO_PREVIOUS is not the index of a built-in of the catalog. *)
Lemma make_protocol_feature_manager_coherent pfs :
  (∀ indx, indx < length (_recognized_builtin_protocol_features pfs) →
           N.of_nat indx ≠ no_previous) →
  coherent (make_protocol_feature_manager pfs).
Proof.
  intros Hnp. split; simpl.
  - constructor.
  - constructor.
  - done.
  - intros b n Hin. by apply elem_of_nil in Hin.
  - intros indx e [-> _]%lookup_replicate _. done.
  - intros indx. rewrite length_replicate, length_fmap. apply Hnp.
Qed.

Lemma set_initialized_coherent b m : coherent m → coherent (set_initialized b m).
Proof. by intros []. Qed.

Lemma run_call_coherent c m :
  coherent m → activates_below_sentinel c →
  coherent (run_call c m).2 ∧ _initialized (run_call c m).2 = _initialized m.
Proof.
  intros Hc Hn. destruct c as [d n|h]; simpl in *.
  - destruct (activate_feature d n m) as [o m'] eqn:Hrun. simpl.
    assert (o = Returns tt ∨ o ≠ Returns tt) as [->|Hfail]
      by (destruct o as [[]| | |]; eauto).
    + split; [by eapply activate_feature_coherent|].
      pose proof (activate_feature_cases d n m) as Hcases. rewrite Hrun in Hcases.
      by inversion Hcases.
    + by destruct (activate_feature_throws_unchanged _ _ _ _ _ Hrun Hfail) as [_ ->].
  - destruct (_initialized m) eqn:Hinit.
    + rewrite popped_blocks_to_coherent by done. simpl.
      split; [by apply rolled_back_coherent|done].
    + unfold popped_blocks_to. run_monad. unfold is_initialized. by rewrite Hinit.
Qed.

Lemma after_calls_coherent cs : ∀ m,
  coherent m → Forall activates_below_sentinel cs →
  coherent (after_calls cs m) ∧ _initialized (after_calls cs m) = _initialized m.
Proof.
  induction cs as [|c cs IH]; intros m Hc Hcs; simpl; [done|].
  apply Forall_cons in Hcs as [Hn Hcs].
  destruct (run_call_coherent c m Hc Hn) as [Hc' Hi'].
  destruct (IH _ Hc' Hcs) as [Hc'' Hi'']. split; [done|congruence].
Qed.

Lemma replay_coherent db : ∀ m o m',
  coherent m → Forall (λ f, f.2 ≠ not_active) db →
  replay db m = (o, m') → coherent m' ∧ _initialized m' = _initialized m.
Proof.
  induction db as [|f db IH]; intros m o m' Hc Hdb Hrun; simpl in Hrun.
  - unfold ret in Hrun. by simplify_eq.
  - apply Forall_cons in Hdb as [Hn Hdb]. unfold bind in Hrun.
    destruct (run_call_coherent (Activate f.1 f.2) m Hc Hn) as [Hc' Hi']. simpl in *.
    destruct (activate_feature f.1 f.2 m) as [[[]| | |] m1] eqn:Hact; simpl in *;
      simplify_eq; try done.
    destruct (IH _ _ _ Hc' Hdb Hrun). split; [done|congruence].
Qed.

(** [init] leaves a coherent manager, initialized when it returns. *)
Lemma init_coherent db m m' :
  coherent m → Forall (λ f, f.2 ≠ not_active) db →
  init db m = (Returns tt, m') → coherent m' ∧ is_initialized m' = true.
Proof.
  intros Hc Hdb. unfold init. run_monad. unfold is_initialized.
  destruct (_initialized m); simpl; [done|].
  destruct (replay db (set_initialized true m)) as [[[]| | |] m1] eqn:Hrun;
    intros ?; simplify_eq.
  apply replay_coherent in Hrun as [? ?]; [done| |done].
  by apply set_initialized_coherent.
Qed.

(** Every manager made by the constructor, [init] and then calls of
    [activate_feature] and [popped_blocks_to], none of them activating at the
    block number NOT_ACTIVE, satisfies the invariants (I4) to (I7) and is
    initialized. *)
Theorem reachable_manager_coherent pfs db m0 cs :
  (∀ i, i < length (_recognized_builtin_protocol_features pfs) →
        N.of_nat i ≠ no_previous) →
  Forall (λ f, f.2 ≠ not_active) db →
  init db (make_protocol_feature_manager pfs) = (Returns tt, m0) →
  Forall activates_below_sentinel cs →
  coherent (after_calls cs m0) ∧ is_initialized (after_calls cs m0) = true.
Proof.
  intros Hnp Hdb Hinit Hcs.
  destruct (init_coherent db _ _ (make_protocol_feature_manager_coherent pfs Hnp)
              Hdb Hinit) as [Hc0 Hi0].
  destruct (after_calls_coherent cs m0 Hc0 Hcs) as [Hc Hi].
  split; [done|]. unfold is_initialized in *. congruence.
Qed.

End Reachable.

(** ** Queries, and the rollback of one activation *)

Section ActivationQueries.
Context `{header_constants}.

(** What [is_builtin_activated] computes, for every manager: the slot
    exists and its block number, sentinel or not, is at most [h]. *)
Lemma is_builtin_activated_slot m indx h :
  is_builtin_activated m indx h = true ↔
  ∃ e, _builtin_protocol_features m !! indx = Some e ∧ (activation_block_num e ≤ h)%N.
Proof.
  unfold is_builtin_activated. case_decide as Hlen.
  - split; [done|]. intros (e & He & _). apply lookup_lt_Some in He. lia.
  - destruct (_builtin_protocol_features m !! indx) as [e|] eqn:He.
    + rewrite N.leb_le. split; [by exists e|]. by intros (? & [= <-] & ?).
    + split; [done|]. by intros (? & [=] & _).
Qed.

(** At the block number NOT_ACTIVE every slot counts as activated. *)
Lemma is_builtin_activated_at_sentinel m indx :
  indx < length (_builtin_protocol_features m) →
  (∀ e, _builtin_protocol_features m !! indx = Some e → (activation_block_num e ≤ not_active)%N) →
  is_builtin_activated m indx not_active = true.
Proof.
  intros Hlt Hle. apply is_builtin_activated_slot.
  destruct (lookup_lt_is_Some_2 _ _ Hlt) as [e He]. eauto.
Qed.

(** C1, amended.  Below the block number NOT_ACTIVE: [is_builtin_activated]
    is true exactly when the slot of the built-in is not NOT_ACTIVE and its
    block number is at most [h]; and in a manager made by the constructor,
    [init] and then any calls of [activate_feature] and [popped_blocks_to],
    none of them activating at the block number NOT_ACTIVE, it is true
    exactly when the log has an entry for the built-in with a block number
    at most [h]. *)
Theorem is_builtin_activated_log indx h :
  (h < not_active)%N →
  (∀ m, is_builtin_activated m indx h = true ↔
        ∃ e, _builtin_protocol_features m !! indx = Some e ∧
             activation_block_num e ≠ not_active ∧ (activation_block_num e ≤ h)%N) ∧
  (∀ pfs db m0 cs,
     (∀ i, i < length (_recognized_builtin_protocol_features pfs) →
           N.of_nat i ≠ no_previous) →
     Forall (λ f, f.2 ≠ not_active) db →
     init db (make_protocol_feature_manager pfs) = (Returns tt, m0) →
     Forall activates_below_sentinel cs →
     let m := after_calls cs m0 in
     is_builtin_activated m indx h = true ↔
     ∃ e, in_log m indx e ∧ (entry_activation_block_num e ≤ h)%N).
Proof.
  intros Hh. split.
  - intros m. rewrite is_builtin_activated_slot.
    split; intros (e & He & Hb); exists e; [split_and!; [done|lia|done]|].
    split; [done|]. by destruct Hb.
  - intros pfs db m0 cs Hnp Hdb Hinit Hcs m.
    assert (Hc : coherent m).
    { apply after_calls_coherent; [|done].
      eapply init_coherent; [|done|done].
      by apply make_protocol_feature_manager_coherent. }
    rewrite is_builtin_activated_slot. split.
    + intros (e & He & Hle).
      assert (Hact : slot_active m indx) by (exists e; split; [done|lia]).
      apply (coherent_slot_active _ _ Hc) in Hact as (x & Hx).
      exists x. split; [done|]. destruct Hx as [Hin Hb].
      assert (Hst : (Some indx, entry_activation_block_num x) ∈ activation_stack m).
      { unfold activation_stack. apply elem_of_reverse, list_elem_of_fmap.
        exists x. by rewrite Hb. }
      destruct (linked_lookup _ _ _ _ _ (coherent_linked _ Hc) Hst) as [prev Hslot].
      rewrite He in Hslot. injection Hslot as ->. done.
    + intros (x & [Hin Hb] & Hle).
      assert (Hst : (Some indx, entry_activation_block_num x) ∈ activation_stack m).
      { unfold activation_stack. apply elem_of_reverse, list_elem_of_fmap.
        exists x. by rewrite Hb. }
      destruct (linked_lookup _ _ _ _ _ (coherent_linked _ Hc) Hst) as [prev Hslot].
      eauto.
Qed.

Lemma surviving_id {A} (block : A → N) h (l : list A) :
  (∀ x, x ∈ l → (block x ≤ h)%N) → surviving block h l = l.
Proof.
  destruct l as [|x l]; intros Hl; simpl; [done|].
  destruct (N.ltb_spec h (block x)) as [Hlt|]; [|done].
  specialize (Hl x (list_elem_of_here _ _)). lia.
Qed.

Lemma unwound_id h slots st :
  (∀ x, x ∈ st → (x.2 ≤ h)%N) → unwound h slots st = slots.
Proof.
  destruct st as [|[[i|] n] st]; intros Hst; simpl; try done.
  destruct (N.ltb_spec h n) as [Hlt|]; [|done].
  specialize (Hst _ (list_elem_of_here _ _)). simpl in Hst. lia.
Qed.

Lemma linked_stack_head slots head st : linked slots head st → stack_head st = head.
Proof. destruct st as [|[b n] st]; simpl; [done|]. by intros (i & prev & -> & -> & _). Qed.

(** C3, amended.  On a manager that satisfies the invariants and whose log
    holds only entries at or before [prev_tip], a successful
    [activate_feature( d, n )] with [prev_tip < n] followed by
    [popped_blocks_to( prev_tip )] gives back the manager as it was: its
    entries, its slots and the head of its stack (and the rest of it). *)
Theorem activate_feature_popped_blocks_to d n prev_tip m m1 :
  coherent m →
  (∀ e, e ∈ _activated_protocol_features m →
        (entry_activation_block_num e ≤ prev_tip)%N) →
  (prev_tip < n)%N →
  activate_feature d n m = (Returns tt, m1) →
  popped_blocks_to prev_tip m1 = (Returns tt, m) ∧
  _activated_protocol_features (popped_blocks_to prev_tip m1).2 =
    _activated_protocol_features m ∧
  _builtin_protocol_features (popped_blocks_to prev_tip m1).2 =
    _builtin_protocol_features m ∧
  _head_of_builtin_activation_list (popped_blocks_to prev_tip m1).2 =
    _head_of_builtin_activation_list m.
Proof.
  intros [Hs Hnd Hl Ha Hi Hnp] Hlog Hn Hrun.
  assert (popped_blocks_to prev_tip m1 = (Returns tt, m)) as ->; [|done].
  pose proof (activate_feature_cases d n m) as Hcases. rewrite Hrun in Hcases.
  inversion Hcases as [| | | | | |pf indx e Hinit Hfind Hmono Hb He Hblock]; subst.
  assert (Hfresh : Some indx ∉ (activation_stack m).*1).
  { intros Hin. apply list_elem_of_fmap in Hin as ([b n'] & Hb' & Hin).
    simpl in Hb'. subst b.
    destruct (linked_lookup _ _ _ _ _ Hl Hin) as [prev Hslot].
    rewrite He in Hslot. injection Hslot as ->. simpl in Hblock.
    by apply (Ha _ _ Hin). }
  assert (Hstack : ∀ x, x ∈ activation_stack m → (x.2 ≤ prev_tip)%N).
  { intros x Hx. unfold activation_stack in Hx.
    apply elem_of_reverse, list_elem_of_fmap in Hx as (y & -> & Hy). by apply Hlog. }
  rewrite popped_blocks_to_linked; rewrite ?(activation_stack_activated _ _ _ _ _ Hfind Hb).
  - f_equal. unfold rolled_back.
    rewrite (activation_stack_activated _ _ _ _ _ Hfind Hb). simpl.
    rewrite reverse_snoc. simpl.
    destruct (N.ltb_spec prev_tip n) as [_|]; [|lia].
    rewrite (surviving_id _ _ (reverse _)), reverse_involutive.
    2:{ intros x Hx. rewrite elem_of_reverse in Hx. by apply Hlog. }
    rewrite (unwound_id _ _ _ Hstack), (surviving_id snd _ _ Hstack).
    rewrite list_insert_insert_eq, (linked_stack_head _ _ _ Hl).
    rewrite list_insert_id by (by rewrite He, (Hi _ _ He Hfresh)).
    by destruct m.
  - exists indx, (_head_of_builtin_activation_list m). simpl. split_and!; [done|done| |].
    + apply list_lookup_insert_eq. by eapply lookup_lt_Some.
    + by apply linked_insert.
  - simpl. by apply NoDup_cons.
  - intros j. simpl. rewrite length_insert. apply Hnp.
  - done.
Qed.

(** [popped_blocks_to( h )] changes nothing in a manager whose log holds
    only entries at or before [h]. *)
Theorem popped_blocks_to_current_tip h m :
  coherent m → is_initialized m = true →
  (∀ e, e ∈ _activated_protocol_features m → (entry_activation_block_num e ≤ h)%N) →
  popped_blocks_to h m = (Returns tt, m).
Proof.
  intros Hc Hinit Hlog. rewrite popped_blocks_to_coherent by done.
  destruct Hc as [Hs Hnd Hl Ha Hi Hnp].
  assert (Hstack : ∀ x, x ∈ activation_stack m → (x.2 ≤ h)%N).
  { intros x Hx. unfold activation_stack in Hx.
    apply elem_of_reverse, list_elem_of_fmap in Hx as (y & -> & Hy). by apply Hlog. }
  f_equal. unfold rolled_back.
  rewrite (surviving_id _ _ (reverse _)), reverse_involutive.
  2:{ intros x Hx. rewrite elem_of_reverse in Hx. by apply Hlog. }
  rewrite (unwound_id _ _ _ Hstack), (surviving_id snd _ _ Hstack).
  rewrite (linked_stack_head _ _ _ Hl). by destruct m.
Qed.

End ActivationQueries.

(** ** The loops of [popped_blocks_to] end *)

Section Termination.
Context `{header_constants}.







End Termination.

(** ** Initialization *)

Section Init.
Context `{header_constants}.



Lemma replay_log db : ∀ m m',
  replay db m = (Returns tt, m') →
  _activated_protocol_features m' =
    _activated_protocol_features m ++
      ((λ f, {| iterator_to_protocol_feature := f.1;
                entry_activation_block_num := f.2 |}) <$> db) ∧
  _protocol_feature_set m' = _protocol_feature_set m ∧
  length (_builtin_protocol_features m') = length (_builtin_protocol_features m) ∧
  _initialized m' = _initialized m.
Proof.
  induction db as [|f db IH]; intros m m' Hrun; simpl in Hrun.
  - unfold ret in Hrun. simplify_eq. by rewrite app_nil_r.
  - unfold bind in Hrun.
    pose proof (activate_feature_cases f.1 f.2 m) as Hcases.
    destruct (activate_feature f.1 f.2 m) as [[[]| | |] m1] eqn:Hact; try done.
    inversion Hcases; subst.
    destruct (IH _ _ Hrun) as (Hlog & Hpfs & Hlen & Hinit). simpl in *.
    rewrite length_insert in Hlen. split_and!; try done.
    by rewrite Hlog, <- app_assoc.
Qed.



End Init.

(** ** The cursor *)

Section Cursor.
Context `{header_constants}.

Lemma sorted_by_block_lookup es (i j : nat) x y :
  sorted_by_block es → i ≤ j → es !! i = Some x → es !! j = Some y →
  (entry_activation_block_num x ≤ entry_activation_block_num y)%N.
Proof.
  intros Hs. revert i j. induction Hs as [|a l Hs IH Ha]; intros i j Hij Hi Hj.
  - by rewrite lookup_nil in Hi.
  - destruct i as [|i], j as [|j]; simplify_eq/=; [lia| |lia|].
    + rewrite Forall_forall in Ha. apply Ha. by eapply list_elem_of_lookup_2.
    + eapply (IH i j); [lia|done|done].
Qed.

(** The binary search of [std::lower_bound] over offsets [first, first +
    len) of a vector that [lt] partitions: it returns the first offset
    where [lt] is false. *)
Lemma std_lower_bound_partition {A} (lt : A → bool) (v : list A) :
  (∀ (i j : nat) x y, i ≤ j → v !! i = Some x → v !! j = Some y →
                      lt y = true → lt x = true) →
  ∀ bound first len,
    len ≤ bound → first + len ≤ length v →
    (∀ (i : nat) x, i < first → v !! i = Some x → lt x = true) →
    (∀ (i : nat) x, first + len ≤ i → v !! i = Some x → lt x = false) →
    let r := std_lower_bound lt v bound first len in
    r ≤ length v ∧
    (∀ (i : nat) x, i < r → v !! i = Some x → lt x = true) ∧
    (∀ (i : nat) x, r ≤ i → v !! i = Some x → lt x = false).
Proof.
  intros Hpart. induction bound as [|bound IH]; intros first len Hb Hlen Hlow Hhigh.
  - simpl. assert (len = 0) as -> by lia. split_and!; [lia|done|].
    intros i x Hi. apply Hhigh. lia.
  - cbn [std_lower_bound]. case_decide as Hz.
    + subst len. split_and!; [lia|done|]. intros i x Hi. apply Hhigh. lia.
    + assert (Hhalf : len / 2 < len) by (apply Nat.div_lt; lia).
      destruct (lookup_lt_is_Some_2 v (first + len / 2)) as [x Hx]; [lia|].
      rewrite Hx. destruct (lt x) eqn:Hltx.
      * apply IH; [lia|lia| |].
        -- intros i y Hi Hy. eapply (Hpart i (first + len / 2)); [lia|done|done|done].
        -- intros i y Hi. apply Hhigh. lia.
      * apply IH; [lia|lia|done|].
        intros i y Hi Hy. destruct (lt y) eqn:Hlty; [|done].
        rewrite <- Hltx. symmetry.
        eapply (Hpart (first + len / 2) i); [lia|done|done|done].
Qed.

Lemma std_upper_bound_lower_bound {A} (gt : A → bool) (v : list A) bound :
  ∀ first len,
    std_upper_bound gt v bound first len =
    std_lower_bound (λ x, negb (gt x)) v bound first len.
Proof.
  induction bound as [|bound IH]; intros first len; [done|].
  cbn [std_lower_bound std_upper_bound]. case_decide; [done|]. destruct (v !! _) as [x|]; [|done].
  destruct (gt x); simpl; apply IH.
Qed.

Lemma first_ordinal_partition (lt : protocol_feature_entry → bool)
    (v : list protocol_feature_entry) (r : nat) :
  r ≤ length v →
  (∀ (i : nat) x, i < r → v !! i = Some x → lt x = true) →
  (∀ (i : nat) x, r ≤ i → v !! i = Some x → lt x = false) →
  first_ordinal (λ e, lt e = false) v
    (if decide (r = length v) then cend else {| _pfm := this; _index := N.of_nat r |}).
Proof.
  intros Hr Hlow Hhigh. case_decide as Hend.
  - right. split; [done|]. intros e [i Hi]%list_elem_of_lookup.
    rewrite (Hlow i e); [done| |done]. apply lookup_lt_Some in Hi. lia.
  - left. destruct (lookup_lt_is_Some_2 v r) as [e He]; [lia|].
    exists r, e. split_and!; [done|done|apply (Hhigh r); [lia|done]|].
    intros j e' Hj He'. by rewrite (Hlow j e').
Qed.

(** C8.  On a log sorted by block number, [lower_bound( b )] is the cursor
    at the first ordinal whose entry has a block number at least [b], and
    [upper_bound( b )] the cursor at the first ordinal whose entry has a
    block number above [b]; each is the end cursor when the log has no such
    entry. *)
Theorem lower_bound_upper_bound_first_ordinal m b :
  sorted_by_block (_activated_protocol_features m) →
  first_ordinal (λ e, (b ≤ entry_activation_block_num e)%N)
                (_activated_protocol_features m) (lower_bound m b) ∧
  first_ordinal (λ e, (b < entry_activation_block_num e)%N)
                (_activated_protocol_features m) (upper_bound m b).
Proof.
  intros Hs. set (v := _activated_protocol_features m).
  split.
  - pose proof (std_lower_bound_partition
                  (λ lhs, (entry_activation_block_num lhs <? b)%N) v) as Hspec.
    destruct (Hspec) with (bound := length v) (first := 0) (len := length v)
      as (Hr & Hlow & Hhigh); [|done|done|lia| |].
    + intros i j x y Hij Hi Hj. rewrite !N.ltb_lt.
      pose proof (sorted_by_block_lookup _ _ _ _ _ Hs Hij Hi Hj). lia.
    + intros i x Hi Hx. apply lookup_lt_Some in Hx. lia.
    + pose proof (first_ordinal_partition _ v _ Hr Hlow Hhigh) as Hfirst.
      unfold lower_bound. fold v.
      destruct Hfirst as [(i & e & -> & He & HP & Hbefore)|[-> Hnone]]; [left|right].
      * exists i, e. split_and!; [done|done|by apply N.ltb_ge|].
        intros j e' Hj He'. specialize (Hbefore j e' Hj He').
        destruct (N.ltb_spec (entry_activation_block_num e') b); [lia|done].
      * split; [done|]. intros e He. specialize (Hnone e He).
        destruct (N.ltb_spec (entry_activation_block_num e) b); [lia|done].
  - pose proof (std_lower_bound_partition
                  (λ rhs, negb (b <? entry_activation_block_num rhs)%N) v) as Hspec.
    destruct (Hspec) with (bound := length v) (first := 0) (len := length v)
      as (Hr & Hlow & Hhigh); [|done|done|lia| |].
    + intros i j x y Hij Hi Hj. rewrite !negb_true_iff, !N.ltb_ge.
      pose proof (sorted_by_block_lookup _ _ _ _ _ Hs Hij Hi Hj). lia.
    + intros i x Hi Hx. apply lookup_lt_Some in Hx. lia.
    + pose proof (first_ordinal_partition _ v _ Hr Hlow Hhigh) as Hfirst.
      unfold upper_bound. fold v. rewrite std_upper_bound_lower_bound.
      destruct Hfirst as [(i & e & -> & He & HP & Hbefore)|[-> Hnone]]; [left|right].
      * exists i, e. split_and!; [done|done|by apply negb_false_iff, N.ltb_lt in HP|].
        intros j e' Hj He'. specialize (Hbefore j e' Hj He').
        destruct (N.ltb_spec b (entry_activation_block_num e')); [done|lia].
      * split; [done|]. intros e He. specialize (Hnone e He).
        destruct (N.ltb_spec b (entry_activation_block_num e)); [done|lia].
Qed.

(** C9.  On a cursor without a manager, [activation_ordinal],
    [activation_block_num], [operator++] and [operator--] throw; on the end
    cursor [operator++] throws, and [operator--] throws when the log is
    empty.  [get_pointer], the dereference, throws in neither case: its two
    assertions are commented out, and it reads through the null pointer, or
    reads the entry at the reserved index, past the end of the log. *)
Theorem const_iterator_misuse m i :
  let it := {| _pfm := nullptr; _index := i |} in
  activation_ordinal it =
    (Throws (IteratorMisuse "called activation_ordinal() on singular iterator"), it) ∧
  const_iterator_activation_block_num m it =
    (Throws (IteratorMisuse "called activation_block_num() on singular iterator"), it) ∧
  increment m it = (Throws (IteratorMisuse "cannot increment singular iterator"), it) ∧
  decrement m it = (Throws (IteratorMisuse "cannot decrement singular iterator"), it) ∧
  increment m cend = (Throws (IteratorMisuse "cannot increment end iterator"), cend) ∧
  (_activated_protocol_features m = [] →
   decrement m cend =
     (Throws (IteratorMisuse
        "cannot decrement end iterator when no protocol features have been activated"),
      cend)) ∧
  get_pointer m it = Undefined ∧
  ((N.of_nat (length (_activated_protocol_features m)) ≤ end_index)%N →
   get_pointer m cend = Undefined).
Proof.
  split_and!; try done.
  - unfold increment. run_monad. by rewrite N.eqb_refl.
  - intros Hempty. unfold decrement. run_monad. by rewrite N.eqb_refl, Hempty.
  - intros Hend. unfold get_pointer, vector_at. simpl.
    by destruct (N.ltb_spec end_index
                   (N.of_nat (length (_activated_protocol_features m)))); [lia|].
Qed.

End Cursor.

(** ** The dependency check of the catalog *)

Section CatalogProperties.
Variable table : gmap builtin_protocol_feature_t builtin_protocol_feature_spec.
Variable digest : builtin_protocol_feature → digest_type.

Lemma satisfied_builtin_dependencies_cases expected deps : ∀ satisfied pfs,
  (Forall (λ d, is_Some (_recognized_protocol_features pfs !! d)) deps ∧
   satisfied_builtin_dependencies expected deps satisfied pfs =
     (Returns (satisfied ∪ (resolved_builtins pfs deps ∩ expected)), pfs)) ∨
  (∃ d, d ∈ deps ∧ _recognized_protocol_features pfs !! d = None ∧
        satisfied_builtin_dependencies expected deps satisfied pfs =
          (Throws (MissingDependency d), pfs)).
Proof.
  unfold resolved_builtins.
  induction deps as [|d deps IH]; intros satisfied pfs; simpl.
  - left. split; [done|]. unfold ret. f_equal. f_equal. set_solver.
  - run_monad. destruct (_recognized_protocol_features pfs !! d) as [pf|] eqn:Hd; simpl.
    2:{ right. exists d. split_and!; [by left|done|done]. }
    match goal with |- context [satisfied_builtin_dependencies _ _ ?s pfs] =>
      destruct (IH s pfs) as [[Hall ->]|(d' & Hin & Hnone & ->)] end.
    + left. split; [constructor; eauto|]. f_equal. f_equal.
      destruct (builtin_feature pf) as [b|]; simpl; [|done].
      case_decide; set_solver.
    + right. exists d'. split_and!; [by right|done|done].
Qed.

Lemma missing_builtins_with_names_cases {S} (missing : list builtin_protocol_feature_t)
    (s : S) :
  (Forall (λ c, is_Some (table !! c)) missing ∧
   missing_builtins_with_names table missing s =
     (Returns (omap (λ c, codename <$> table !! c) missing), s)) ∨
  (¬ Forall (λ c, is_Some (table !! c)) missing ∧
   missing_builtins_with_names table missing s = (Throws UnexpectedError, s)).
Proof.
  induction missing as [|c missing IH]; simpl.
  - left. by split.
  - destruct (table !! c) as [sp|] eqn:Hc; simpl.
    + run_monad. destruct IH as [[Hall ->]|[Hnot ->]].
      * left. split; [constructor; eauto|done].
      * right. split; [|done]. intros Hall. apply Hnot. by apply Forall_cons in Hall as [_ ?].
    + right. split; [|done]. intros Hall. apply Forall_cons in Hall as [[? ?] _].
      congruence.
Qed.

(** [add_feature] accepts a feature that passes its tests, whatever else
    its dependencies resolve to. *)
Lemma add_feature_accepts f pfs spec :
  table !! _codename f = Some spec →
  (∀ x, _recognized_builtin_protocol_features pfs !! _codename f = Some x → x = set_end) →
  Forall (λ d, is_Some (_recognized_protocol_features pfs !! d)) (bf_dependencies f) →
  builtin_dependencies spec ⊆ resolved_builtins pfs (bf_dependencies f) →
  _recognized_protocol_features pfs !! digest f = None →
  add_feature table digest f pfs =
    (Returns (protocol_feature_of digest f), with_feature digest f pfs).
Proof.
  intros Hspec Hfree Hall Hsub Hnew. unfold add_feature. rewrite Hspec.
  unfold bind at 1, gets at 1. unfold bind at 1.
  match goal with |- context [(if ?c then ?a else ?b) pfs] =>
    assert ((if c then a else b) pfs = (Returns tt, pfs)) as -> end.
  { case_decide as Hlt; [|done]. run_monad.
    destruct (lookup_lt_is_Some_2 _ _ Hlt) as [x Hx]. rewrite Hx.
    rewrite (Hfree _ Hx). by rewrite bool_decide_true. }
  unfold bind at 1.
  destruct (satisfied_builtin_dependencies_cases (builtin_dependencies spec)
              (bf_dependencies f) ∅ pfs) as [[_ ->]|(d' & Hin & Hnone & _)].
  2:{ rewrite Forall_forall in Hall. destruct (Hall _ Hin) as [? ?]. congruence. }
  unfold bind at 1.
  match goal with |- context [decide (size ?a < size ?b)] =>
    rewrite (decide_False (P := size a < size b))
  end.
  2:{ apply Nat.le_ngt, subseteq_size. set_solver. }
  unfold ret at 1. unfold bind at 1, gets at 1. rewrite Hnew.
  rewrite bool_decide_true by done. run_monad.
  unfold with_feature, protocol_feature_of. case_decide; reflexivity.
Qed.

(** C4, amended.  A feature that [add_feature] accepts resolves, through
    its dependency digests, at least the built-ins its spec declares; more
    are allowed.  A feature that passes the tests before (known built-in,
    slot of the built-in free, every dependency recognized) and does not
    resolve every declared built-in is rejected, the catalog unchanged, with
    the names of the missing built-ins when the table names them; one that
    passes them and resolves every declared built-in is accepted when its
    digest is new. *)
Theorem add_feature_builtin_dependencies f pfs :
  (∀ pf pfs', add_feature table digest f pfs = (Returns pf, pfs') →
     ∃ spec, table !! _codename f = Some spec ∧
             builtin_dependencies spec ⊆ resolved_builtins pfs (bf_dependencies f)) ∧
  (∀ spec,
     table !! _codename f = Some spec →
     (∀ x, _recognized_builtin_protocol_features pfs !! _codename f = Some x → x = set_end) →
     Forall (λ d, is_Some (_recognized_protocol_features pfs !! d)) (bf_dependencies f) →
     builtin_dependencies spec ⊈ resolved_builtins pfs (bf_dependencies f) →
     let missing :=
       merge_sort (≤) (elements (builtin_dependencies spec ∖
                                  resolved_builtins pfs (bf_dependencies f))) in
     if decide (Forall (λ c, is_Some (table !! c)) missing) then
       add_feature table digest f pfs =
         (Throws (UnsatisfiedBuiltinDependencies
                    (omap (λ c, codename <$> table !! c) missing)), pfs)
     else add_feature table digest f pfs = (Throws UnexpectedError, pfs)) ∧
  (∀ spec,
     table !! _codename f = Some spec →
     (∀ x, _recognized_builtin_protocol_features pfs !! _codename f = Some x → x = set_end) →
     Forall (λ d, is_Some (_recognized_protocol_features pfs !! d)) (bf_dependencies f) →
     builtin_dependencies spec ⊆ resolved_builtins pfs (bf_dependencies f) →
     _recognized_protocol_features pfs !! digest f = None →
     add_feature table digest f pfs =
       (Returns (protocol_feature_of digest f), with_feature digest f pfs)).
Proof.
  split; [|split; [|intros spec; by apply add_feature_accepts]].
  - intros pf pfs' Hrun. unfold add_feature in Hrun.
    destruct (table !! _codename f) as [spec|] eqn:Hspec; [|done].
    exists spec. split; [done|]. revert Hrun.
    unfold bind at 1, gets at 1. unfold bind at 1.
    match goal with |- context [(if ?c then ?a else ?b) pfs] =>
      destruct ((if c then a else b) pfs) as [o s] eqn:Hslot end.
    assert (o = Returns tt ∧ s = pfs ∨ (∃ e, o = Throws e)) as [[-> ->]|[e ->]];
      [|clear Hslot|done].
    { revert Hslot. case_decide; run_monad; [case_bool_decide|]; intros [= <- <-]; eauto. }
    unfold bind at 1.
    destruct (satisfied_builtin_dependencies_cases (builtin_dependencies spec)
                (bf_dependencies f) ∅ pfs) as [[Hall ->]|(d' & Hin & Hnone & ->)]; [|done].
    unfold bind at 1. case_decide as Hsize.
    { unfold bind at 1.
      by destruct (missing_builtins_with_names_cases
                     (merge_sort le (elements (builtin_dependencies spec ∖
                        (∅ ∪ resolved_builtins pfs (bf_dependencies f)
                             ∩ builtin_dependencies spec)))) pfs) as [[_ ->]|[_ ->]]. }
    intros _.
    assert (Heq : ∅ ∪ resolved_builtins pfs (bf_dependencies f) ∩ builtin_dependencies spec
                  = builtin_dependencies spec).
    { apply set_subseteq_size_eq; [set_solver|lia]. }
    set_solver.
  - intros spec Hspec Hfree Hall Hmissing missing.
    assert (Hrun : add_feature table digest f pfs =
                   (let* names := missing_builtins_with_names table missing in
                    throw (UnsatisfiedBuiltinDependencies names)) pfs).
    { unfold add_feature. rewrite Hspec.
      unfold bind at 1, gets at 1. unfold bind at 1.
      match goal with |- context [(if ?c then ?a else ?b) pfs] =>
        assert ((if c then a else b) pfs = (Returns tt, pfs)) as -> end.
      { case_decide as Hlt; [|done]. run_monad.
        destruct (lookup_lt_is_Some_2 _ _ Hlt) as [x Hx]. rewrite Hx.
        rewrite (Hfree _ Hx). by rewrite bool_decide_true. }
      unfold bind at 1.
      destruct (satisfied_builtin_dependencies_cases (builtin_dependencies spec)
                  (bf_dependencies f) ∅ pfs) as [[_ ->]|(d' & Hin & Hnone & _)].
      2:{ rewrite Forall_forall in Hall. destruct (Hall _ Hin) as [? ?]. congruence. }
      assert (Hdiff : builtin_dependencies spec ∖
                        (∅ ∪ resolved_builtins pfs (bf_dependencies f)
                             ∩ builtin_dependencies spec)
                      = builtin_dependencies spec ∖
                          resolved_builtins pfs (bf_dependencies f))
        by set_solver.
      unfold bind at 1.
      match goal with |- context [decide (size ?a < size ?b)] =>
        rewrite (decide_True (P := size a < size b)) by (apply subset_size; set_solver)
      end.
      rewrite Hdiff. fold missing. unfold bind.
      by destruct (missing_builtins_with_names table missing pfs) as [[]]. }
    rewrite Hrun. unfold bind.
    destruct (missing_builtins_with_names_cases missing pfs) as [[Hnames ->]|[Hnot ->]].
    + by rewrite decide_True.
    + by rewrite decide_False.
Qed.

End CatalogProperties.

(** ** The catalog: the ways [add_feature] ends, and its invariants *)

Section CatalogInvariants.
Variable table : gmap builtin_protocol_feature_t builtin_protocol_feature_spec.
Variable digest : builtin_protocol_feature → digest_type.

Lemma add_feature_cases f pfs :
  add_feature_result table digest f pfs (add_feature table digest f pfs).
Proof.
  unfold add_feature.
  destruct (table !! _codename f) as [spec|] eqn:Hspec; [|by constructor].
  unfold bind at 1, gets at 1. unfold bind at 1.
  destruct (_recognized_builtin_protocol_features pfs !! _codename f) as [itr|] eqn:Hslot;
    [destruct (decide (itr = set_end)) as [->|Hne]|].
  2: { rewrite decide_True by (by eapply lookup_lt_Some).
       unfold EOS_ASSERT. rewrite bool_decide_false by congruence.
       by eapply add_duplicate_builtin. }
  all: assert (Hfree : slot_free pfs (_codename f)) by (intros x Hx; congruence).
  all: match goal with |- context [(if ?c then ?a else ?b) ?s] =>
         assert ((if c then a else b) s = (Returns tt, s)) as -> end.
  1: { case_decide; [unfold EOS_ASSERT; by rewrite bool_decide_true|done]. }
  2: { case_decide; [apply lookup_ge_None in Hslot; lia|done]. }
  all: unfold bind at 1;
    destruct (satisfied_builtin_dependencies_cases (builtin_dependencies spec)
                (bf_dependencies f) ∅ pfs) as [[Hall ->]|(d' & Hin & Hnone & ->)];
    [|by eapply add_missing_dependency].
  all: unfold bind at 1.
  all: destruct (decide (builtin_dependencies spec
                         ⊆ resolved_builtins pfs (bf_dependencies f))) as [Hsub|Hsub].
  2,4: match goal with |- context [decide (size ?a < size ?b)] =>
         rewrite (decide_True (P := size a < size b)) by (apply subset_size; set_solver)
       end; unfold bind at 1;
       match goal with |- context [missing_builtins_with_names _ ?l ?s] =>
         destruct (missing_builtins_with_names_cases table l s) as [[_ ->]|[_ ->]]
       end; eapply add_unsatisfied; eauto.
  all: match goal with |- context [decide (size ?a < size ?b)] =>
         rewrite (decide_False (P := size a < size b))
           by (apply Nat.le_ngt, subseteq_size; set_solver)
       end.
  all: unfold ret at 1; unfold bind at 1, gets at 1.
  all: destruct (_recognized_protocol_features pfs !! digest f) as [old|] eqn:Hnew.
  1,3: rewrite bool_decide_false by done; run_monad; by eapply add_duplicate_digest.
  all: rewrite bool_decide_true by done; run_monad.
  all: case_decide as Hlen; simpl.
  all: match goal with |- add_feature_result _ _ _ _ (_, ?X) =>
         replace X with (with_feature digest f pfs);
           [by eapply add_accepted|] end.
  all: unfold with_feature, protocol_feature_of; simpl.
  all: first [rewrite decide_True by done | rewrite decide_False by done]; reflexivity.
Qed.

Lemma empty_protocol_feature_set_wf : catalog_wf table empty_protocol_feature_set.
Proof.
  split; simpl; intros; simplify_map_eq; try done.
Qed.

Lemma resolved_builtins_elem pfs deps c :
  c ∈ resolved_builtins pfs deps ↔
  ∃ d pf, d ∈ deps ∧ _recognized_protocol_features pfs !! d = Some pf ∧
          builtin_feature pf = Some c.
Proof.
  unfold resolved_builtins. rewrite elem_of_list_to_set, list_elem_of_omap.
  split.
  - intros (d & Hd & Hc).
    destruct (_recognized_protocol_features pfs !! d) as [pf|] eqn:Hpf; [|done].
    eauto.
  - intros (d & pf & Hd & Hpf & Hc). exists d. split; [done|]. by rewrite Hpf.
Qed.

Lemma resolved_builtins_with_feature f pfs deps :
  _recognized_protocol_features pfs !! digest f = None →
  Forall (λ d, is_Some (_recognized_protocol_features pfs !! d)) deps →
  resolved_builtins (with_feature digest f pfs) deps = resolved_builtins pfs deps.
Proof.
  intros Hnew Hall. apply set_eq. intros c. rewrite !resolved_builtins_elem.
  rewrite Forall_forall in Hall.
  split; intros (d & pf & Hd & Hpf & Hc); exists d, pf; split_and!; try done.
  - simpl in Hpf. rewrite lookup_insert_ne in Hpf; [done|].
    intros <-. destruct (Hall _ Hd) as [? ?]. congruence.
  - simpl. rewrite lookup_insert_ne; [done|].
    intros <-. congruence.
Qed.

Lemma with_feature_builtins_lookup f pfs c :
  _recognized_builtin_protocol_features (with_feature digest f pfs) !! c =
  if decide (c = _codename f) then Some (at_entry (digest f))
  else if decide (c < length (_recognized_builtin_protocol_features pfs))
       then _recognized_builtin_protocol_features pfs !! c
       else if decide (c < _codename f) then Some set_end else None.
Proof.
  simpl. set (l := _recognized_builtin_protocol_features pfs).
  destruct (decide (c = _codename f)) as [->|Hne].
  - apply list_lookup_insert_eq. case_decide.
    + rewrite length_app, length_replicate. lia.
    + lia.
  - rewrite list_lookup_insert_ne by done.
    destruct (decide (c < length l)) as [Hlt|Hge].
    + case_decide; [|done]. by rewrite lookup_app_l.
    + case_decide as Hlen.
      * rewrite lookup_app_r by lia. case_decide.
        -- apply lookup_replicate_2. lia.
        -- apply lookup_ge_None. rewrite length_replicate. lia.
      * rewrite decide_False by lia. apply lookup_ge_None. unfold l in *. lia.
Qed.

(** [add_feature] keeps the invariants of the catalog. *)
Lemma with_feature_wf f pfs spec :
  catalog_wf table pfs →
  table !! _codename f = Some spec →
  slot_free pfs (_codename f) →
  Forall (λ d, is_Some (_recognized_protocol_features pfs !! d)) (bf_dependencies f) →
  builtin_dependencies spec ⊆ resolved_builtins pfs (bf_dependencies f) →
  _recognized_protocol_features pfs !! digest f = None →
  catalog_wf table (with_feature digest f pfs).
Proof.
  intros [Hdig Hclosed Hdecl Hbuiltin Hindex] Hspec Hfree Hall Hsub Hnew.
  assert (Hlook : ∀ d pf,
    _recognized_protocol_features (with_feature digest f pfs) !! d = Some pf →
    (d = digest f ∧ pf = protocol_feature_of digest f) ∨
    (d ≠ digest f ∧ _recognized_protocol_features pfs !! d = Some pf)).
  { intros d pf. simpl. destruct (decide (digest f = d)) as [<-|Hne].
    - rewrite lookup_insert_eq. intros [= <-]. by left.
    - rewrite lookup_insert_ne by done. intros ?. right. split; [congruence|done]. }
  assert (Hkeep : ∀ d, is_Some (_recognized_protocol_features pfs !! d) →
    is_Some (_recognized_protocol_features (with_feature digest f pfs) !! d)).
  { intros d [pf Hpf]. simpl. destruct (decide (digest f = d)) as [<-|Hne].
    - rewrite lookup_insert_eq. eauto.
    - rewrite lookup_insert_ne by done. eauto. }
  split.
  - intros d pf [[-> ->]|[_ Hpf]]%Hlook; [done|by eapply Hdig].
  - intros d pf x [[-> ->]|[_ Hpf]]%Hlook Hx; apply Hkeep.
    + rewrite Forall_forall in Hall. by apply Hall.
    + by eapply Hclosed.
  - intros d pf [[-> ->]|[_ Hpf]]%Hlook.
    + exists (_codename f), spec. split_and!; [done|done|].
      by rewrite resolved_builtins_with_feature.
    + destruct (Hdecl _ _ Hpf) as (c & sp & Hc & Hsp & Hs).
      exists c, sp. split_and!; [done|done|].
      rewrite resolved_builtins_with_feature; [done|done|].
      apply Forall_forall. intros x Hx. by eapply Hclosed.
  - intros d pf c [[-> ->]|[_ Hpf]]%Hlook Hc.
    + simpl in Hc. injection Hc as <-.
      rewrite with_feature_builtins_lookup. by rewrite decide_True.
    + pose proof (Hbuiltin _ _ _ Hpf Hc) as Hslot.
      rewrite with_feature_builtins_lookup.
      rewrite decide_False.
      2:{ intros ->. specialize (Hfree _ Hslot). done. }
      rewrite decide_True by (by eapply lookup_lt_Some). done.
  - intros c d. rewrite with_feature_builtins_lookup.
    destruct (decide (c = _codename f)) as [->|Hne].
    + intros [= <-]. exists (protocol_feature_of digest f). split; [|done].
      simpl. apply lookup_insert_eq.
    + case_decide.
      * intros Hslot. destruct (Hindex _ _ Hslot) as (pf & Hpf & Hc).
        exists pf. split; [|done]. simpl. rewrite lookup_insert_ne; [done|].
        intros <-. congruence.
      * case_decide; intros [=].
Qed.

End CatalogInvariants.

Section CatalogExtras.
Variable table : gmap builtin_protocol_feature_t builtin_protocol_feature_spec.
Variable digest : builtin_protocol_feature → digest_type.

Lemma add_feature_returns_inv f pfs pf pfs' :
  add_feature table digest f pfs = (Returns pf, pfs') →
  pf = protocol_feature_of digest f ∧ pfs' = with_feature digest f pfs ∧
  ∃ spec, table !! _codename f = Some spec ∧ slot_free pfs (_codename f) ∧
    Forall (λ d, is_Some (_recognized_protocol_features pfs !! d)) (bf_dependencies f) ∧
    builtin_dependencies spec ⊆ resolved_builtins pfs (bf_dependencies f) ∧
    _recognized_protocol_features pfs !! digest f = None.
Proof.
  intros Hrun. pose proof (add_feature_cases table digest f pfs) as Hcases.
  rewrite Hrun in Hcases. inversion Hcases; subst. eauto 10.
Qed.

Lemma add_feature_wf f pfs :
  catalog_wf table pfs → catalog_wf table (add_feature table digest f pfs).2.
Proof.
  intros Hwf. destruct (add_feature table digest f pfs) as [o pfs'] eqn:Hrun.
  pose proof (add_feature_cases table digest f pfs) as Hcases.
  rewrite Hrun in Hcases. inversion Hcases; subst; simpl; try done.
  by eapply with_feature_wf.
Qed.

Lemma after_adds_wf fs pfs :
  catalog_wf table pfs → catalog_wf table (after_adds table digest fs pfs).
Proof.
  revert pfs. induction fs as [|f fs IH]; intros pfs Hwf; [done|].
  simpl. apply IH. by apply add_feature_wf.
Qed.

(** [add_feature] fills the catalog in place: the slots it adds hold
    [end()] of the set itself, so no catalog built from the empty one holds
    [end()] of a set moved from. *)
Lemma after_adds_index_in_place fs pfs :
  index_in_place pfs → index_in_place (after_adds table digest fs pfs).
Proof.
  revert pfs. induction fs as [|f fs IH]; intros pfs Hplace; [done|].
  simpl. apply IH.
  pose proof (add_feature_cases table digest f pfs) as Hcases.
  destruct (add_feature table digest f pfs) as [o pfs'].
  inversion Hcases; subst; simpl; try done.
  unfold index_in_place in *.
  intros [c Hc]%list_elem_of_lookup.
  rewrite with_feature_builtins_lookup in Hc.
  repeat case_decide; simplify_eq.
  apply Hplace. by eapply list_elem_of_lookup_2.
Qed.

(** The move of a catalog into a manager keeps the invariants of the
    catalog: they read the set and the slots that point at an entry. *)
Lemma move_constructed_wf pfs :
  catalog_wf table pfs → catalog_wf table (move_constructed pfs).
Proof.
  intros [Hdig Hclosed Hdecl Hbuiltin Hindex].
  split; try done.
  - intros d pf c Hpf Hc. apply move_constructed_at_entry.
    exact (Hbuiltin _ _ _ Hpf Hc).
  - intros c d Hc. rewrite move_constructed_at_entry in Hc. exact (Hindex _ _ Hc).
Qed.

(** [add_feature] either accepts the feature, returning its entry and
    leaving the catalog with that entry and its slot, or throws and leaves
    the catalog as it was; it has no undefined behaviour. *)
Theorem add_feature_all_or_nothing f pfs :
  add_feature table digest f pfs
    = (Returns (protocol_feature_of digest f), with_feature digest f pfs) ∨
  ∃ e, add_feature table digest f pfs = (Throws e, pfs).
Proof.
  pose proof (add_feature_cases table digest f pfs) as Hcases.
  destruct (add_feature table digest f pfs) as [o pfs'].
  inversion Hcases; subst; eauto.
Qed.

(** Every catalog built from the empty one by calls of [add_feature],
    accepted or not, keeps the invariants of the catalog: entries sit under
    their own digest, dependencies are recognized, declared built-in
    dependencies are resolved, and the index of built-ins and the entries
    name each other. *)
Theorem reachable_catalog_wf fs :
  catalog_wf table (after_adds table digest fs empty_protocol_feature_set).
Proof. apply after_adds_wf, empty_protocol_feature_set_wf. Qed.

(** After [add_feature( f )] returned, the feature is found under its
    digest and under its codename, and it is recognized. *)
Theorem add_feature_then_lookup f pfs pf pfs' now :
  add_feature table digest f pfs = (Returns pf, pfs') →
  get_protocol_feature pfs' (digest f) = Returns pf ∧
  get_builtin_digest pfs' (_codename f) = Returns (Some (digest f)) ∧
  is_recognized pfs' (digest f) now ≠ unrecognized.
Proof.
  intros (-> & -> & _)%add_feature_returns_inv.
  assert (Hnew : _recognized_protocol_features (with_feature digest f pfs) !! digest f
                 = Some (protocol_feature_of digest f)) by apply lookup_insert_eq.
  split_and!.
  - unfold get_protocol_feature. by rewrite Hnew.
  - unfold get_builtin_digest.
    pose proof (with_feature_builtins_lookup digest f pfs (_codename f)) as Hslot.
    rewrite decide_True in Hslot by done.
    rewrite decide_False by (apply Nat.lt_nge; by eapply lookup_lt_Some).
    by rewrite Hslot, Hnew.
  - unfold is_recognized. rewrite Hnew. by repeat case_match.
Qed.

(** [add_feature( f )] changes no other lookup of a catalog that keeps
    its invariants: the other digests and the other codenames answer as
    before. *)
Theorem add_feature_frame f pfs pf pfs' :
  catalog_wf table pfs →
  add_feature table digest f pfs = (Returns pf, pfs') →
  (∀ d, d ≠ digest f → get_protocol_feature pfs' d = get_protocol_feature pfs d) ∧
  (∀ d now, d ≠ digest f → is_recognized pfs' d now = is_recognized pfs d now) ∧
  (∀ c, c ≠ _codename f → get_builtin_digest pfs' c = get_builtin_digest pfs c).
Proof.
  intros Hwf (-> & -> & spec & _ & _ & _ & _ & Hnew)%add_feature_returns_inv.
  assert (Hother : ∀ d, d ≠ digest f →
    _recognized_protocol_features (with_feature digest f pfs) !! d
    = _recognized_protocol_features pfs !! d).
  { intros d Hd. simpl. by rewrite lookup_insert_ne. }
  split_and!.
  - intros d Hd. unfold get_protocol_feature. by rewrite Hother.
  - intros d now Hd. unfold is_recognized. by rewrite Hother.
  - intros c Hc. unfold get_builtin_digest.
    pose proof (with_feature_builtins_lookup digest f pfs c) as Hslot.
    rewrite decide_False in Hslot by done.
    destruct (decide (c < length (_recognized_builtin_protocol_features pfs))) as [Hlt|Hge].
    + rewrite (decide_False (P := length (_recognized_builtin_protocol_features pfs) ≤ c))
        by lia.
      rewrite decide_False by (apply Nat.lt_nge; eapply lookup_lt_is_Some_1;
                               rewrite Hslot; by apply lookup_lt_is_Some_2).
      rewrite Hslot.
      destruct (_recognized_builtin_protocol_features pfs !! c) as [[d| |]|] eqn:Hd;
        try done.
      destruct (wf_index _ _ Hwf _ _ Hd) as (pf' & Hpf' & _).
      rewrite Hother; [done|]. intros ->. congruence.
    + rewrite (decide_True (P := length (_recognized_builtin_protocol_features pfs) ≤ c))
        by lia.
      destruct (decide (length (_recognized_builtin_protocol_features
                                  (with_feature digest f pfs)) ≤ c)) as [|Hlen]; [done|].
      rewrite Hslot. case_decide; [done|].
      exfalso. apply Hlen. by apply lookup_ge_None.
Qed.

(** Once [add_feature] accepted a feature, a further feature with the
    same codename is refused as a duplicate built-in, and the catalog stays
    as it is. *)
Theorem add_feature_twice_duplicate f g pfs pf pfs' :
  add_feature table digest f pfs = (Returns pf, pfs') →
  _codename g = _codename f →
  add_feature table digest g pfs' = (Throws DuplicateBuiltin, pfs').
Proof.
  intros (-> & -> & spec & Hspec & _)%add_feature_returns_inv Hsame.
  pose proof (add_feature_cases table digest g (with_feature digest f pfs)) as Hcases.
  pose proof (with_feature_builtins_lookup digest f pfs (_codename f)) as Hslot.
  rewrite decide_True in Hslot by done.
  destruct (add_feature table digest g (with_feature digest f pfs)) as [o s].
  inversion Hcases; subst; try congruence.
  all: match goal with H : slot_free _ _ |- _ =>
         rewrite Hsame in H; specialize (H _ Hslot); done end.
Qed.

(** In a catalog that keeps its invariants and was not moved since it
    was filled (no slot of its index holds [end()] of a set moved from, as
    the slots of the catalog of a manager do), [get_builtin_digest] never
    reads a dangling iterator: it returns the digest of the one recognized
    feature of that built-in, or nothing when no recognized feature is
    that built-in. *)
Theorem get_builtin_digest_wf pfs c :
  catalog_wf table pfs →
  index_in_place pfs →
  (∃ d pf, get_builtin_digest pfs c = Returns (Some d) ∧
           get_protocol_feature pfs d = Returns pf ∧ builtin_feature pf = Some c ∧
           ∀ d' pf', _recognized_protocol_features pfs !! d' = Some pf' →
                     builtin_feature pf' = Some c → d' = d) ∨
  (get_builtin_digest pfs c = Returns None ∧
   ∀ d pf, _recognized_protocol_features pfs !! d = Some pf → builtin_feature pf ≠ Some c).
Proof.
  intros Hwf Hplace. unfold get_builtin_digest, get_protocol_feature.
  destruct (_recognized_builtin_protocol_features pfs !! c) as [[d| |]|] eqn:Hslot.
  - left. destruct (wf_index _ _ Hwf _ _ Hslot) as (pf & Hpf & Hc).
    exists d, pf. rewrite decide_False by (apply Nat.lt_nge; by eapply lookup_lt_Some).
    rewrite Hpf, (wf_digest _ _ Hwf _ _ Hpf). split_and!; try done.
    intros d' pf' Hpf' Hc'. pose proof (wf_builtin _ _ Hwf _ _ _ Hpf' Hc'). congruence.
  - right. split; [by case_decide|].
    intros d pf Hpf Hc. pose proof (wf_builtin _ _ Hwf _ _ _ Hpf Hc). congruence.
  - exfalso. apply Hplace. by eapply list_elem_of_lookup_2.
  - right. split.
    + rewrite decide_True; [done|]. by apply lookup_ge_None.
    + intros d pf Hpf Hc. pose proof (wf_builtin _ _ Hwf _ _ _ Hpf Hc). congruence.
Qed.

Lemma validate_each_Forall validator deps :
  validate_each validator deps = true ↔ Forall (λ d, validator d = true) deps.
Proof.
  induction deps as [|d deps IH]; simpl.
  - split; [by constructor|done].
  - rewrite Forall_cons. destruct (validator d); simpl; [|naive_solver].
    rewrite IH. naive_solver.
Qed.

(** [validate_dependencies] answers true exactly for a recognized
    digest all of whose dependencies the validator accepts. *)
Theorem validate_dependencies_spec pfs d validator :
  validate_dependencies pfs d validator = true ↔
  ∃ pf, _recognized_protocol_features pfs !! d = Some pf ∧
        Forall (λ x, validator x = true) (dependencies pf).
Proof.
  unfold validate_dependencies.
  destruct (_recognized_protocol_features pfs !! d) as [pf|]; [|naive_solver].
  rewrite validate_each_Forall. naive_solver.
Qed.

(** In a catalog that keeps its invariants the dependencies of every
    recognized feature are recognized: [validate_dependencies] with
    [is_recognized] as the validator answers true for every recognized
    digest. *)
Theorem validate_dependencies_closed pfs d now :
  catalog_wf table pfs →
  is_recognized pfs d now ≠ unrecognized →
  validate_dependencies pfs d
    (λ x, match is_recognized pfs x now with unrecognized => false | _ => true end) = true.
Proof.
  intros Hwf Hd. unfold validate_dependencies. unfold is_recognized in Hd.
  destruct (_recognized_protocol_features pfs !! d) as [pf|] eqn:Hpf; [|done].
  apply validate_each_Forall, Forall_forall. intros x Hx.
  destruct (wf_closed _ _ Hwf _ _ _ Hpf Hx) as [pf' Hpf'].
  unfold is_recognized. rewrite Hpf'. by repeat case_match.
Qed.

(** The feature that [make_default_builtin_protocol_feature] makes
    of a built-in is accepted by [add_feature] when that built-in is not in
    the catalog yet, [handle_dependency] answers each declared dependency
    with the digest of the recognized feature of that built-in, and the
    digest of the new feature is not recognized. *)
Theorem make_default_then_add_feature pfs c spec handle_dependency :
  table !! c = Some spec →
  slot_free pfs c →
  (∀ b, b ∈ builtin_dependencies spec →
        ∃ pf, _recognized_protocol_features pfs !! handle_dependency b = Some pf ∧
              builtin_feature pf = Some b) →
  (∀ f, make_default_builtin_protocol_feature table c handle_dependency = Returns f →
        _recognized_protocol_features pfs !! digest f = None) →
  ∃ f, make_default_builtin_protocol_feature table c handle_dependency = Returns f ∧
       add_feature table digest f pfs
         = (Returns (protocol_feature_of digest f), with_feature digest f pfs).
Proof.
  intros Hspec Hfree Hhandle Hnew.
  unfold make_default_builtin_protocol_feature in *. rewrite Hspec in *.
  eexists. split; [done|]. specialize (Hnew _ eq_refl).
  match goal with |- add_feature _ _ ?f _ = _ => set (made := f) in * end.
  assert (Hdeps : ∀ x, x ∈ bf_dependencies made ↔
            ∃ b, b ∈ builtin_dependencies spec ∧ x = handle_dependency b).
  { intros x. unfold made. simpl.
    rewrite merge_sort_Permutation, elem_of_remove_dups, list_elem_of_fmap.
    setoid_rewrite merge_sort_Permutation. setoid_rewrite elem_of_elements.
    naive_solver. }
  pose proof (add_feature_cases table digest made pfs) as Hcases.
  destruct (add_feature table digest made pfs) as [o s].
  inversion Hcases; subst; simpl in *; try congruence.
  all: try match goal with H : _ !! _ = Some ?sp, H' : _ !! _ = Some ?sp' |- _ =>
             assert (sp = sp') as -> by congruence end.
  - exfalso.
    match goal with H : _ !! c = Some ?itr, Hne : ?itr ≠ set_end |- _ =>
      by specialize (Hfree _ H) end.
  - exfalso. match goal with H : _ ∈ _ |- _ => apply Hdeps in H as (b & Hb & ->) end.
    destruct (Hhandle _ Hb) as (pf & Hpf & _). congruence.
  - exfalso. match goal with H : _ ⊈ _ |- _ => apply H end.
    intros b Hb. apply resolved_builtins_elem.
    destruct (Hhandle _ Hb) as (pf & Hpf & Hc).
    exists (handle_dependency b), pf. split_and!; [|done|done].
    apply Hdeps. eauto.
  - exfalso. match goal with H : is_Some _ |- _ => destruct H as [? ?] end. congruence.
Qed.

End CatalogExtras.

(** ** Codenames and their strings *)

Section Codenames.
Variable table : gmap builtin_protocol_feature_t builtin_protocol_feature_spec.
Variable iteration : list (builtin_protocol_feature_t * builtin_protocol_feature_spec).

Lemma first_with_codename_Some name c :
  first_with_codename iteration name = Some c →
  ∃ s, (c, s) ∈ iteration ∧ codename s = name.
Proof.
  induction iteration as [|[c' s'] rest IH]; simpl; [done|].
  case_decide as Hname.
  - intros [= <-]. exists s'. split; [by left|done].
  - intros (s & Hin & Hs)%IH. exists s. split; [by right|done].
Qed.

Lemma first_with_codename_elem c s :
  NoDup ((λ p, codename p.2) <$> iteration) →
  (c, s) ∈ iteration →
  first_with_codename iteration (codename s) = Some c.
Proof.
  induction iteration as [|[c' s'] rest IH]; simpl.
  - intros _ Hin. by apply elem_of_nil in Hin.
  - intros [Hfresh Hrest]%NoDup_cons [[= -> ->]|Hin]%elem_of_cons.
    + by rewrite decide_True.
    + rewrite decide_False; [by apply IH|].
      intros Hsame. apply Hfresh. rewrite Hsame in *.
      apply list_elem_of_fmap. by exists (c, s).
Qed.

Hypothesis iteration_of_table : iteration ≡ₚ map_to_list table.
Hypothesis unique_names : NoDup ((λ p, codename p.2) <$> iteration).

Lemma iteration_elem c s : (c, s) ∈ iteration ↔ table !! c = Some s.
Proof using iteration_of_table. by rewrite iteration_of_table, elem_of_map_to_list. Qed.

Lemma reflector_init_inr strings c :
  builtin_protocol_feature_reflector_init iteration strings = inr c ↔
  protocol_feature_type strings = feature_type_string ∧
  ∃ s, table !! c = Some s ∧ codename s = builtin_feature_codename strings.
Proof using iteration_of_table unique_names.
  unfold builtin_protocol_feature_reflector_init, protocol_feature_base_reflector_init.
  case_decide as Htype; [|naive_solver].
  destruct (first_with_codename iteration (builtin_feature_codename strings)) as [c'|] eqn:Hc'.
  - apply first_with_codename_Some in Hc' as (s' & Hin' & Hs').
    split.
    + intros [= <-]. split; [done|]. exists s'. by rewrite <-iteration_elem.
    + intros (_ & s & Hs & Hname). apply iteration_elem in Hs.
      pose proof (first_with_codename_elem _ _ unique_names Hs) as H1.
      pose proof (first_with_codename_elem _ _ unique_names Hin') as H2.
      rewrite Hname in H1. rewrite Hs' in H2. congruence.
  - split; [done|]. intros (_ & s & Hs & Hname). apply iteration_elem in Hs.
    pose proof (first_with_codename_elem _ _ unique_names Hs) as H1.
    rewrite Hname in H1. congruence.
Qed.

(** When the names of the table are pairwise different,
    [reflector_init] sets [_codename] to [c] exactly when the type string
    is the one of a built-in and the codename string is the name of [c]
    in the table, in whatever order the loop visits the table. *)
Theorem reflector_init_spec strings c :
  builtin_protocol_feature_reflector_init iteration strings = inr c ↔
  protocol_feature_type strings = feature_type_string ∧
  builtin_protocol_feature_codename table c = Returns (builtin_feature_codename strings).
Proof using iteration_of_table unique_names.
  rewrite reflector_init_inr. unfold builtin_protocol_feature_codename.
  destruct (table !! c) as [s|].
  - split.
    + intros (Htype & s' & [= <-] & Hname). by rewrite Hname.
    + intros (Htype & [= Hname]). eauto.
  - split; [by intros (_ & s & ? & _)|by intros [_ ?]].
Qed.

(** The strings that the constructor of [builtin_protocol_feature]
    stores lead [reflector_init] back to the codename the feature was
    constructed with, when the names of the table are pairwise different. *)
Theorem codename_round_trip c description deps restrictions f strings :
  construct_builtin_protocol_feature table c description deps restrictions
    = Returns (f, strings) →
  _codename f = c ∧
  builtin_protocol_feature_reflector_init iteration strings = inr (_codename f).
Proof using iteration_of_table unique_names.
  unfold construct_builtin_protocol_feature.
  destruct (table !! c) as [s|] eqn:Hs; [|done].
  intros [= <- <-]. split; [done|]. apply reflector_init_inr. simpl. eauto.
Qed.

End Codenames.

(** Only strings of a built-in with a name of the table pass
    [reflector_init]: another type string is refused first, and then a
    codename string that no entry of the table carries. *)
Theorem reflector_init_refuses iteration strings :
  match builtin_protocol_feature_reflector_init iteration strings with
  | inr c => protocol_feature_type strings = feature_type_string ∧
             ∃ s, (c, s) ∈ iteration ∧ codename s = builtin_feature_codename strings
  | inl (UnsupportedProtocolFeatureType type) =>
      type = protocol_feature_type strings ∧ type ≠ feature_type_string
  | inl (UnsupportedCodename name) =>
      protocol_feature_type strings = feature_type_string ∧
      name = builtin_feature_codename strings ∧
      ∀ p, p ∈ iteration → codename p.2 ≠ name
  end.
Proof.
  unfold builtin_protocol_feature_reflector_init, protocol_feature_base_reflector_init.
  case_decide as Htype; [|done].
  destruct (first_with_codename iteration (builtin_feature_codename strings)) as [c|] eqn:Hc.
  - split; [done|]. by apply first_with_codename_Some.
  - split_and!; try done. intros p Hp Hname.
    clear Htype. induction iteration as [|p' rest IH]; [by apply elem_of_nil in Hp|].
    simpl in Hc. case_decide as Hp'; [done|].
    apply elem_of_cons in Hp as [->|Hp]; [congruence|by apply IH].
Qed.

(** ** The journal, and rollbacks in a row *)

Section ManagerExtras.
Context `{header_constants}.

(** When [init] returns, the log of the manager is its former log
    followed by the journal, entry by entry; the catalog and the number of
    slots are as before, and the manager is initialized. *)
Theorem init_log_is_journal db m m' :
  init db m = (Returns tt, m') →
  activation_journal m' = activation_journal m ++ db ∧
  _protocol_feature_set m' = _protocol_feature_set m ∧
  length (_builtin_protocol_features m') = length (_builtin_protocol_features m) ∧
  is_initialized m' = true.
Proof.
  unfold init. run_monad. unfold is_initialized.
  destruct (_initialized m); simpl; [done|].
  destruct (replay db (set_initialized true m)) as [[[]| | |] m1] eqn:Hrun;
    intros ?; simplify_eq.
  apply replay_log in Hrun as (Hlog & Hpfs & Hlen & Hinit). simpl in *.
  split_and!; try done.
  unfold activation_journal. rewrite Hlog, fmap_app. f_equal.
  rewrite <- list_fmap_compose. rewrite <- (list_fmap_id db) at 2.
  apply list_fmap_ext. by intros i [d n] _.
Qed.

(** The [previous] links and the head of the stack are a function of the
    stack. *)
Lemma linked_determined st : ∀ slots1 head1 slots2 head2,
  linked slots1 head1 st → linked slots2 head2 st →
  head1 = head2 ∧ ∀ j : nat, Some j ∈ st.*1 → slots1 !! j = slots2 !! j.
Proof.
  induction st as [|[b n] st IH]; intros slots1 head1 slots2 head2 H1 H2; simpl in *.
  - split; [congruence|]. intros j Hj. by apply elem_of_nil in Hj.
  - destruct H1 as (i1 & prev1 & -> & -> & Hi1 & H1).
    destruct H2 as (i2 & prev2 & [= <-] & -> & Hi2 & H2).
    destruct (IH _ _ _ _ H1 H2) as [-> Hslots]. split; [done|].
    intros j [[= ->]|Hj]%elem_of_cons; [congruence|by apply Hslots].
Qed.

(** A coherent manager is determined by its catalog, its log, the number
    of its slots and its flag. *)
Lemma coherent_determined m1 m2 :
  coherent m1 → coherent m2 →
  _protocol_feature_set m1 = _protocol_feature_set m2 →
  _activated_protocol_features m1 = _activated_protocol_features m2 →
  length (_builtin_protocol_features m1) = length (_builtin_protocol_features m2) →
  _initialized m1 = _initialized m2 →
  m1 = m2.
Proof.
  intros [_ _ Hl1 _ Hi1 _] [_ _ Hl2 _ Hi2 _] Hpfs Hlog Hlen Hinit.
  assert (Hst : activation_stack m1 = activation_stack m2)
    by (unfold activation_stack; by rewrite Hpfs, Hlog).
  rewrite Hst in *.
  destruct (linked_determined _ _ _ _ _ Hl1 Hl2) as [Hhead Hslots].
  assert (Hsame : _builtin_protocol_features m1 = _builtin_protocol_features m2).
  { apply list_eq. intros j.
    destruct (decide (Some j ∈ (activation_stack m2).*1)) as [Hin|Hout];
      [by apply Hslots|].
    destruct (_builtin_protocol_features m1 !! j) as [e1|] eqn:He1.
    - destruct (lookup_lt_is_Some_2 (_builtin_protocol_features m2) j) as [e2 He2].
      { rewrite <- Hlen. by eapply lookup_lt_Some. }
      by rewrite He2, (Hi1 _ _ He1 Hout), (Hi2 _ _ He2 Hout).
    - symmetry. apply lookup_ge_None. rewrite <- Hlen. by apply lookup_ge_None. }
  destruct m1, m2; simpl in *. by subst.
Qed.

(** Replaying the rest of a log that is sorted, activates no built-in
    twice, names built-ins with a slot and never the block number
    NOT_ACTIVE, returns. *)
Lemma replay_returns es2 : ∀ m1,
  coherent m1 → _initialized m1 = true →
  sorted_by_block (_activated_protocol_features m1 ++ es2) →
  NoDup (entry_builtin (_protocol_feature_set m1) <$> (_activated_protocol_features m1 ++ es2)) →
  (∀ e, e ∈ es2 → ∃ indx, entry_builtin (_protocol_feature_set m1) e = Some indx ∧
                          indx < length (_builtin_protocol_features m1)) →
  (∀ e, e ∈ es2 → entry_activation_block_num e ≠ not_active) →
  ∃ m', replay ((λ e, (iterator_to_protocol_feature e, entry_activation_block_num e))
                  <$> es2) m1 = (Returns tt, m') ∧
        coherent m' ∧
        _activated_protocol_features m' = _activated_protocol_features m1 ++ es2.
Proof.
  induction es2 as [|[d n] es2 IH]; intros m1 Hc Hinit Hs Hnd Hb Hn.
  - exists m1. simpl. by rewrite app_nil_r.
  - csimpl. unfold bind.
    pose proof (activate_feature_cases d n m1) as Hcases.
    set (e := {| iterator_to_protocol_feature := d; entry_activation_block_num := n |}) in *.
    destruct (Hb e) as (indx & He & Hlt); [by left|].
    unfold entry_builtin in He. simpl in He.
    destruct (find (_protocol_feature_set m1) d) as [pf|] eqn:Hfind; [|done].
    simpl in He.
    destruct (activate_feature d n m1) as [o m2] eqn:Hrun.
    inversion Hcases as [| |pf' l ? ? Hlast Hlt'|pf' ? ? ? Hnone|pf' indx' ? ? ? Hb' Hge
                         |pf' indx' e' ? ? ? Hb' He' Hact|pf' indx' e' ? ? Hmono Hb' He' Hact];
      subst o m2; try congruence.
    + exfalso. apply last_Some in Hlast as [es' Hes']. rewrite Hes' in Hs.
      unfold sorted_by_block in Hs.
      assert (Hle : (entry_activation_block_num l ≤ entry_activation_block_num e)%N).
      { apply (StronglySorted_app_1_elem_of _ _ _ l e Hs); [|by left].
        apply elem_of_app. right. by left. }
      simpl in Hle. lia.
    + exfalso. assert (indx' = indx) as -> by congruence. lia.
    + exfalso. assert (indx' = indx) as -> by congruence.
      assert (Hslot : slot_active m1 indx) by (by exists e').
      apply (coherent_slot_active _ _ Hc) in Hslot as (x & Hx & Hxb).
      rewrite fmap_app in Hnd. apply NoDup_app in Hnd as (_ & Hdisj & _).
      apply (Hdisj (Some indx)).
      * apply list_elem_of_fmap. by exists x.
      * apply list_elem_of_fmap. exists e. split; [|by left].
        unfold entry_builtin. simpl. by rewrite Hfind.
    + assert (indx' = indx) as -> by congruence.
      assert (Hc2 : coherent (activated m1 d n indx)).
      { eapply activate_feature_coherent; [done| |done]. apply (Hn e). by left. }
      destruct (IH (activated m1 d n indx)) as (m' & Hrun' & Hc' & Hlog'); simpl.
      * done.
      * done.
      * by rewrite <- app_assoc.
      * by rewrite <- app_assoc.
      * intros x Hx. rewrite length_insert. apply Hb. by right.
      * intros x Hx. apply Hn. by right.
      * exists m'. split_and!; [done|done|]. rewrite Hlog'. simpl.
        by rewrite <- app_assoc.
Qed.

(** The journal of a manager gives the manager back: [init] with the
    journal of an initialized manager that satisfies the invariants, on a
    manager newly constructed from a catalog like the one it was
    constructed from, returns and leaves that manager, with its catalog as
    the move left it, its entries, its slots and the head of its stack. *)
Theorem init_round_trip pfs m :
  coherent m → is_initialized m = true →
  _protocol_feature_set m = move_constructed pfs →
  length (_builtin_protocol_features m) =
    length (_recognized_builtin_protocol_features pfs) →
  init (activation_journal m) (make_protocol_feature_manager pfs) = (Returns tt, m).
Proof.
  intros Hc Hinit Hpfs Hlen. unfold is_initialized in Hinit.
  set (m0 := set_initialized true (make_protocol_feature_manager pfs)).
  assert (Hpfs0 : _protocol_feature_set m0 = _protocol_feature_set m) by (by rewrite Hpfs).
  assert (Hlen0 : length (_builtin_protocol_features m0)
                  = length (_builtin_protocol_features m)).
  { simpl. by rewrite length_replicate, length_fmap. }
  assert (Hc0 : coherent m0).
  { apply set_initialized_coherent, make_protocol_feature_manager_coherent.
    intros indx Hindx. apply (coherent_no_previous _ Hc). by rewrite Hlen. }
  assert (Hst : ∀ e, e ∈ _activated_protocol_features m →
            (entry_builtin (_protocol_feature_set m) e, entry_activation_block_num e)
              ∈ activation_stack m).
  { intros e He. unfold activation_stack. apply elem_of_reverse, list_elem_of_fmap. eauto. }
  destruct (replay_returns (_activated_protocol_features m) m0) as (m' & Hrun & Hc' & Hlog');
    rewrite ?Hpfs0, ?Hlen0; try done.
  - apply Hc.
  - pose proof (coherent_once _ Hc) as Hnd. unfold activation_stack in Hnd.
    rewrite fmap_reverse, reverse_Permutation, <- list_fmap_compose in Hnd.
    exact Hnd.
  - intros e He.
    destruct (linked_in_range _ _ _ (entry_builtin (_protocol_feature_set m) e)
                (coherent_linked _ Hc)) as (indx & Hb & Hlt); [|eauto].
    apply list_elem_of_fmap. eexists. split; [|by apply Hst]. done.
  - intros e He. eapply (coherent_active _ Hc). by apply Hst.
  - unfold init. run_monad. fold m0. unfold activation_journal. rewrite Hrun.
    f_equal. destruct (replay_log _ _ _ Hrun) as (_ & Hpfs' & Hlen' & Hinit').
    apply coherent_determined; try done; [congruence|congruence|].
    by rewrite Hinit', Hinit.
Qed.

Lemma surviving_surviving_below {A} (block : A → N) h h' (l : list A) :
  (h' ≤ h)%N → surviving block h' (surviving block h l) = surviving block h' l.
Proof.
  intros Hle. induction l as [|x l IH]; simpl; [done|].
  destruct (N.ltb_spec h (block x)) as [Hlt|Hge].
  - rewrite IH. destruct (N.ltb_spec h' (block x)); [done|lia].
  - done.
Qed.

Lemma unwound_unwound_below h h' st : ∀ slots head,
  (h' ≤ h)%N → linked slots head st → NoDup st.*1 →
  unwound h' (unwound h slots st) (surviving snd h st) = unwound h' slots st.
Proof.
  induction st as [|[b n] st IH]; intros slots head Hle Hl Hnd; simpl in *; [done|].
  destruct Hl as (i & prev & -> & -> & Hi & Hl).
  apply NoDup_cons in Hnd as [Hnotin Hnd].
  destruct (N.ltb_spec h n) as [Hlt|Hge]; [|done].
  destruct (N.ltb_spec h' n) as [_|]; [|lia].
  eapply IH; [done| |done]. by apply linked_insert.
Qed.

Lemma rolled_back_below h m e :
  coherent m → e ∈ _activated_protocol_features (rolled_back h m) →
  (entry_activation_block_num e ≤ h)%N.
Proof.
  intros Hc He.
  assert (Hst : (entry_builtin (_protocol_feature_set m) e,
                 entry_activation_block_num e) ∈ activation_stack (rolled_back h m)).
  { unfold activation_stack. apply elem_of_reverse, list_elem_of_fmap. by exists e. }
  rewrite activation_stack_rolled_back in Hst.
  apply surviving_below in Hst; [done|].
  apply activation_stack_descending, Hc.
Qed.

Lemma rolled_back_id h m :
  coherent m →
  (∀ e, e ∈ _activated_protocol_features m → (entry_activation_block_num e ≤ h)%N) →
  rolled_back h m = m.
Proof.
  intros Hc Hlog.
  assert (Hstack : ∀ x, x ∈ activation_stack m → (x.2 ≤ h)%N).
  { intros x Hx. unfold activation_stack in Hx.
    apply elem_of_reverse, list_elem_of_fmap in Hx as (y & -> & Hy). by apply Hlog. }
  unfold rolled_back.
  rewrite (surviving_id _ _ (reverse _)), reverse_involutive.
  2:{ intros x Hx. rewrite elem_of_reverse in Hx. by apply Hlog. }
  rewrite (unwound_id _ _ _ Hstack), (surviving_id snd _ _ Hstack).
  rewrite (linked_stack_head _ _ _ (coherent_linked _ Hc)). by destruct m.
Qed.

Lemma rolled_back_rolled_back h h' m :
  coherent m → rolled_back h' (rolled_back h m) = rolled_back (N.min h h') m.
Proof.
  intros Hc. destruct (N.min_spec h h') as [[Hlt ->]|[Hle ->]].
  - apply rolled_back_id; [by apply rolled_back_coherent|].
    intros e He. pose proof (rolled_back_below _ _ _ Hc He). lia.
  - unfold rolled_back at 1. rewrite activation_stack_rolled_back. simpl.
    rewrite reverse_involutive, !surviving_surviving_below by done.
    by rewrite (unwound_unwound_below _ _ _ _ _ Hle (coherent_linked _ Hc) (coherent_once _ Hc)).
Qed.

(** Two rollbacks in a row are the rollback to the lower of the two
    block numbers: on an initialized manager that satisfies the invariants,
    [popped_blocks_to( h )] and then [popped_blocks_to( h' )] leave what
    [popped_blocks_to( min( h, h' ) )] leaves. *)
Theorem popped_blocks_to_twice h h' m :
  coherent m → is_initialized m = true →
  (popped_blocks_to h;;; popped_blocks_to h') m = popped_blocks_to (N.min h h') m.
Proof.
  intros Hc Hinit. unfold bind.
  rewrite (popped_blocks_to_coherent h m), (popped_blocks_to_coherent (N.min h h') m) by done.
  rewrite popped_blocks_to_coherent; [|by apply rolled_back_coherent|done].
  by rewrite rolled_back_rolled_back.
Qed.

(** After [activate_feature( d, n )] returned, the digest is the one
    of a built-in of the catalog; [is_builtin_activated] answers for that
    built-in whether the block asked for is at least [n], and for every
    other built-in what it answered before; and the last entry of the log
    is the new activation. *)
Theorem activate_feature_then_queries d n m m' :
  activate_feature d n m = (Returns tt, m') →
  ∃ pf indx,
    find (_protocol_feature_set m) d = Some pf ∧ builtin_feature pf = Some indx ∧
    (∀ h, is_builtin_activated m' indx h = (n <=? h)%N) ∧
    (∀ c h, c ≠ indx → is_builtin_activated m' c h = is_builtin_activated m c h) ∧
    last (_activated_protocol_features m') =
      Some {| iterator_to_protocol_feature := d; entry_activation_block_num := n |} ∧
    activation_journal m' = activation_journal m ++ [(d, n)].
Proof.
  intros Hrun. pose proof (activate_feature_cases d n m) as Hcases.
  rewrite Hrun in Hcases.
  inversion Hcases as [| | | | | |pf indx e Hinit Hfind Hmono Hb He Hblock]; subst.
  exists pf, indx. split_and!; [done|done| | | |].
  - intros h. unfold is_builtin_activated. simpl. rewrite length_insert.
    rewrite decide_False by (apply Nat.lt_nge; by eapply lookup_lt_Some).
    rewrite list_lookup_insert_eq by (by eapply lookup_lt_Some). done.
  - intros c h Hc. unfold is_builtin_activated. simpl. rewrite length_insert.
    by rewrite list_lookup_insert_ne.
  - simpl. apply last_snoc.
  - unfold activation_journal. simpl. by rewrite fmap_app.
Qed.

End ManagerExtras.

(** ** Walking the log with a cursor *)

Section CursorExtras.
Context `{header_constants}.



(** The cursor at an ordinal of the log reads the entry at that
    ordinal: [activation_ordinal] returns the ordinal, when it fits 32
    bits, [activation_block_num] the block number of the entry, and
    neither moves the cursor; and in a manager that satisfies the
    invariants the dereference returns the catalog entry of the digest
    activated there, a built-in. *)
Theorem at_activation_ordinal_reads m (i : nat) e :
  (N.of_nat (length (_activated_protocol_features m)) ≤ end_index)%N →
  _activated_protocol_features m !! i = Some e →
  let it := at_activation_ordinal m (N.of_nat i) in
  ((N.of_nat i < 2 ^ 32)%N → activation_ordinal it = (Returns (N.of_nat i), it)) ∧
  const_iterator_activation_block_num m it = (Returns (entry_activation_block_num e), it) ∧
  (coherent m →
   ∃ pf, get_pointer m it = Returns pf ∧
         find (_protocol_feature_set m) (iterator_to_protocol_feature e) = Some pf ∧
         is_Some (builtin_feature pf)).
Proof.
  intros Hfit He. pose proof (lookup_lt_Some _ _ _ He) as Hi.
  unfold at_activation_ordinal.
  destruct (N.leb_spec (N.of_nat (length (_activated_protocol_features m))) (N.of_nat i));
    [lia|].
  simpl. split_and!.
  - intros Hword. unfold activation_ordinal. run_monad.
    destruct (N.eqb_spec (N.of_nat i) end_index); [lia|]. simpl.
    by rewrite N.mod_small.
  - unfold const_iterator_activation_block_num. run_monad.
    destruct (N.eqb_spec (N.of_nat i) end_index); [lia|]. simpl.
    by rewrite vector_at_lookup, He.
  - intros Hc. unfold get_pointer. simpl. rewrite vector_at_lookup, He.
    assert (Hst : entry_builtin (_protocol_feature_set m) e ∈ (activation_stack m).*1).
    { apply list_elem_of_fmap.
      exists (entry_builtin (_protocol_feature_set m) e, entry_activation_block_num e).
      split; [done|]. unfold activation_stack.
      apply elem_of_reverse, list_elem_of_fmap. exists e. split; [done|].
      by eapply list_elem_of_lookup_2. }
    destruct (linked_in_range _ _ _ _ (coherent_linked _ Hc) Hst) as (indx & Hb & _).
    unfold entry_builtin in Hb.
    destruct (find (_protocol_feature_set m) (iterator_to_protocol_feature e))
      as [pf|]; [|done].
    simpl in Hb. exists pf. by rewrite Hb.
Qed.

(** On a log sorted by block number, the entries activated in
    block [b] are exactly those from [lower_bound( b )] up to, and not
    including, [upper_bound( b )]. *)
Theorem lower_bound_upper_bound_range m b (i : nat) e :
  sorted_by_block (_activated_protocol_features m) →
  (N.of_nat (length (_activated_protocol_features m)) ≤ end_index)%N →
  _activated_protocol_features m !! i = Some e →
  entry_activation_block_num e = b ↔
  (cursor_position m (lower_bound m b) ≤ N.of_nat i
   < cursor_position m (upper_bound m b))%N.
Proof.
  intros Hs Hfit He. set (v := _activated_protocol_features m) in *.
  pose proof (lookup_lt_Some _ _ _ He) as Hi.
  assert (Hpos : ∀ r, r ≤ length v →
            cursor_position m (if decide (r = length v) then cend
                               else {| _pfm := this; _index := N.of_nat r |}) = N.of_nat r).
  { intros r Hr. unfold cursor_position. fold v. case_decide as Hend; simpl.
    - by rewrite N.eqb_refl, Hend.
    - destruct (N.eqb_spec (N.of_nat r) end_index); [lia|done]. }
  destruct (std_lower_bound_partition
              (λ lhs, (entry_activation_block_num lhs <? b)%N) v)
    with (bound := length v) (first := 0) (len := length v)
    as (Hr & Hlow & Hhigh); [|done|done|lia| |].
  { intros j k x y Hjk Hj Hk. rewrite !N.ltb_lt.
    pose proof (sorted_by_block_lookup _ _ _ _ _ Hs Hjk Hj Hk). lia. }
  { intros j x Hj Hx. apply lookup_lt_Some in Hx. lia. }
  destruct (std_lower_bound_partition
              (λ rhs, negb (b <? entry_activation_block_num rhs)%N) v)
    with (bound := length v) (first := 0) (len := length v)
    as (Hr' & Hlow' & Hhigh'); [|done|done|lia| |].
  { intros j k x y Hjk Hj Hk. rewrite !negb_true_iff, !N.ltb_ge.
    pose proof (sorted_by_block_lookup _ _ _ _ _ Hs Hjk Hj Hk). lia. }
  { intros j x Hj Hx. apply lookup_lt_Some in Hx. lia. }
  unfold lower_bound, upper_bound. fold v.
  rewrite std_upper_bound_lower_bound.
  set (lo := std_lower_bound (λ lhs, (entry_activation_block_num lhs <? b)%N)
                             v (length v) 0 (length v)) in *.
  set (hi := std_lower_bound (λ rhs, negb (b <? entry_activation_block_num rhs)%N)
                             v (length v) 0 (length v)) in *.
  rewrite (Hpos lo), (Hpos hi) by done.
  destruct (decide (i < lo)) as [Hlt|Hge].
  { specialize (Hlow _ _ Hlt He). apply N.ltb_lt in Hlow. lia. }
  specialize (Hhigh i e ltac:(lia) He). apply N.ltb_ge in Hhigh.
  destruct (decide (i < hi)) as [Hlt'|Hge'].
  - specialize (Hlow' _ _ Hlt' He). apply negb_true_iff, N.ltb_ge in Hlow'. lia.
  - specialize (Hhigh' i e ltac:(lia) He). apply negb_false_iff, N.ltb_lt in Hhigh'. lia.
Qed.

End CursorExtras.

(** ** The catalog under the manager *)

Section CatalogAndManager.
Context `{header_constants}.
Variable table : gmap builtin_protocol_feature_t builtin_protocol_feature_spec.

(** The two invariant failures of [activate_feature] do not happen
    over a catalog that keeps its invariants, in a manager with a slot for
    every built-in of the index (as the constructor makes it): it never
    throws for a feature that is not a built-in, nor for a built-in
    without a slot. *)
Theorem activate_feature_invariant_failures m d n :
  catalog_wf table (_protocol_feature_set m) →
  length (_builtin_protocol_features m) =
    length (_recognized_builtin_protocol_features (_protocol_feature_set m)) →
  (activate_feature d n m).1 ≠ Throws UnsupportedFeatureKind ∧
  (activate_feature d n m).1 ≠ Throws BuiltinIndexOutOfRange.
Proof.
  intros Hwf Hlen. pose proof (activate_feature_cases d n m) as Hcases.
  destruct (activate_feature d n m) as [o m'] eqn:Hrun. simpl.
  inversion Hcases as [| | |pf ? Hfind ? Hnone|pf indx ? Hfind ? Hb Hge| |]; subst o;
    try done; subst m'; unfold find in Hfind.
  - destruct (wf_declared _ _ Hwf _ _ Hfind) as (c & spec & Hc & _). congruence.
  - pose proof (wf_builtin _ _ Hwf _ _ _ Hfind Hb) as Hslot.
    apply lookup_lt_Some in Hslot. lia.
Qed.
End CatalogAndManager.

(** ** The scenarios of the specification *)

Section Scenarios.
#[local] Existing Instance numeric_limits.

Example make_default_feature_A :
  make_default_builtin_protocol_feature builtin_protocol_feature_codenames
    preactivate_feature (λ _, 0%N) = Returns feature_A.
Proof. vm_compute. reflexivity. Qed.

Example catalog_AB_builtins :
  _recognized_builtin_protocol_features catalog_AB = [at_entry digest_A; at_entry digest_B].
Proof. vm_compute. reflexivity. Qed.

Example catalog_AB_features :
  find catalog_AB digest_A = Some recognized_A ∧
  find catalog_AB digest_B = Some recognized_B ∧
  find catalog_AB 7%N = None.
Proof. vm_compute. done. Qed.

Example manager_0_state :
  _activated_protocol_features manager_0 = [] ∧
  _builtin_protocol_features manager_0 =
    [default_builtin_protocol_feature_entry; default_builtin_protocol_feature_entry] ∧
  _head_of_builtin_activation_list manager_0 = no_previous ∧
  is_initialized manager_0 = true.
Proof. vm_compute. done. Qed.

(** Scenario 5, with the two built-ins of the table. *)
Example rollback_scenario :
  popped_blocks_to 149 manager_A_B = (Returns tt, manager_A) ∧
  is_builtin_activated manager_A only_link_to_existing_permission 1000 = false ∧
  is_builtin_activated manager_A preactivate_feature 100 = true ∧
  _head_of_builtin_activation_list manager_A = 0%N ∧
  _builtin_protocol_features manager_A !! 0 =
    Some {| previous := no_previous; activation_block_num := 100 |}.
Proof. vm_compute. done. Qed.

(** Scenario 6. *)
Example bounds_scenario :
  lower_bound manager_bounds 20 = {| _pfm := this; _index := 1 |} ∧
  upper_bound manager_bounds 20 = {| _pfm := this; _index := 3 |} ∧
  lower_bound manager_bounds 31 = cend.
Proof. vm_compute. done. Qed.

(** Scenarios 1 and 2, with a table in which the second built-in declares
    the first: without the dependency the feature is rejected, with the name
    of the missing built-in; with it the feature is accepted; and before the
    first built-in is added its digest is a missing dependency. *)
Example unsatisfied_dependency_scenario :
  let table : gmap builtin_protocol_feature_t builtin_protocol_feature_spec :=
    <[only_link_to_existing_permission :=
        {| codename := "ONLY_LINK_TO_EXISTING_PERMISSION";
           spec_description_digest := bf_description_digest feature_B;
           builtin_dependencies := {[ preactivate_feature ]};
           spec_subjective_restrictions := bf_subjective_restrictions feature_B |}]>
      builtin_protocol_feature_codenames in
  let feature_B_alone :=
    {| bf_description_digest := bf_description_digest feature_B;
       bf_dependencies := [];
       bf_subjective_restrictions := bf_subjective_restrictions feature_B;
       _codename := only_link_to_existing_permission |} in
  add_feature table description_as_digest feature_B_alone catalog_A =
    (Throws (UnsatisfiedBuiltinDependencies ["PREACTIVATE_FEATURE"]), catalog_A) ∧
  add_feature table description_as_digest feature_B catalog_A =
    (Returns recognized_B, catalog_AB) ∧
  add_feature table description_as_digest feature_B empty_protocol_feature_set =
    (Throws (MissingDependency digest_A), empty_protocol_feature_set).
Proof. vm_compute. done. Qed.

(** The dereference of the end cursor and of a cursor without a manager. *)
Example dereference_scenario :
  get_pointer manager_A (cbegin manager_A) = Returns recognized_A ∧
  get_pointer manager_A cend = Undefined ∧
  get_pointer manager_A singular = Undefined.
Proof. vm_compute. done. Qed.

(** The replay of a journal that activates a digest twice: [init] throws
    and leaves the manager not initialized, its log holding the first
    entry. *)
Example failed_replay_scenario :
  let r := init [(digest_A, 100%N); (digest_A, 101%N)]
                (make_protocol_feature_manager catalog_AB) in
  r.1 = Throws AlreadyActivated ∧
  is_initialized r.2 = false ∧
  _activated_protocol_features r.2 = [entry digest_A 100].
Proof. vm_compute. done. Qed.



Lemma manager_0_coherent : coherent manager_0.
Proof.
  eapply (init_coherent [] (make_protocol_feature_manager catalog_AB)).
  - apply make_protocol_feature_manager_coherent. intros indx Hlt.
    rewrite catalog_AB_builtins in Hlt. simpl in *. lia.
  - constructor.
  - vm_compute. reflexivity.
Qed.

Lemma manager_A_coherent : coherent manager_A.
Proof.
  change manager_A with (after_calls [Activate digest_A 100] manager_0).
  apply after_calls_coherent; [apply manager_0_coherent|].
  repeat constructor; simpl; lia.
Qed.

Lemma manager_A_B_coherent : coherent manager_A_B.
Proof.
  change manager_A_B
    with (after_calls [Activate digest_A 100; Activate digest_B 150] manager_0).
  apply after_calls_coherent; [apply manager_0_coherent|].
  repeat constructor; simpl; lia.
Qed.

(** C1, as stated, fails at the block number NOT_ACTIVE: no built-in is
    activated and the log is empty, and [is_builtin_activated] is true. *)
Lemma is_builtin_activated_counterexample :
  is_initialized manager_0 = true ∧
  _activated_protocol_features manager_0 = [] ∧
  _builtin_protocol_features manager_0 !! preactivate_feature =
    Some {| previous := no_previous; activation_block_num := not_active |} ∧
  is_builtin_activated manager_0 preactivate_feature 4294967295 = true.
Proof. vm_compute. done. Qed.

Lemma is_builtin_activated_log_witness :
  (100 < not_active)%N ∧
  init [] (make_protocol_feature_manager catalog_AB) = (Returns tt, manager_0) ∧
  (is_builtin_activated manager_A preactivate_feature 100 = true ↔
   ∃ e, in_log manager_A preactivate_feature e ∧ (entry_activation_block_num e ≤ 100)%N).
Proof.
  assert (Hh : (100 < not_active)%N) by (vm_compute; reflexivity).
  assert (Hinit : init [] (make_protocol_feature_manager catalog_AB)
                  = (Returns tt, manager_0)) by (vm_compute; reflexivity).
  split_and!; [exact Hh|exact Hinit|].
  apply (proj2 (is_builtin_activated_log preactivate_feature 100 Hh)
               catalog_AB [] manager_0 [Activate digest_A 100]).
  - intros i Hi. rewrite catalog_AB_builtins in Hi. simpl in *. lia.
  - constructor.
  - exact Hinit.
  - repeat constructor. simpl. lia.
Defined.

Lemma popped_blocks_to_invariant_witness :
  is_initialized manager_A_B = true ∧
  ∃ m', popped_blocks_to 149 manager_A_B = (Returns tt, m') ∧
        (∀ e, e ∈ _activated_protocol_features m' →
              (entry_activation_block_num e ≤ 149)%N) ∧
        _activated_protocol_features m' =
          filter (λ e, (entry_activation_block_num e ≤ 149)%N)
                 (_activated_protocol_features manager_A_B) ∧
        (∀ indx, slot_active m' indx ↔ ∃ e, in_log m' indx e) ∧
        coherent m'.
Proof.
  split; [vm_compute; reflexivity|].
  apply (popped_blocks_to_invariant 149 manager_A_B manager_A_B_coherent).
  vm_compute; reflexivity.
Defined.

(** C3, as stated, fails for the second activation of a block: after
    [activate_feature( digest_A, 100 )], [activate_feature( digest_B, 100 )]
    returns, and [popped_blocks_to( 99 )] then removes both activations
    instead of giving back the manager with the first. *)
Lemma activate_feature_popped_blocks_to_counterexample :
  is_initialized manager_A = true ∧
  _activated_protocol_features manager_A = [entry digest_A 100] ∧
  activate_feature digest_B 100 manager_A = (Returns tt, manager_AB) ∧
  popped_blocks_to 99 manager_AB = (Returns tt, manager_0) ∧
  _activated_protocol_features manager_0 = [] ∧
  _builtin_protocol_features manager_A !! preactivate_feature =
    Some {| previous := no_previous; activation_block_num := 100 |} ∧
  _builtin_protocol_features manager_0 !! preactivate_feature =
    Some {| previous := no_previous; activation_block_num := not_active |}.
Proof. vm_compute. done. Qed.

Lemma activate_feature_popped_blocks_to_witness :
  (149 < 150)%N ∧
  activate_feature digest_B 150 manager_A = (Returns tt, manager_A_B) ∧
  popped_blocks_to 149 manager_A_B = (Returns tt, manager_A) ∧
  _activated_protocol_features (popped_blocks_to 149 manager_A_B).2 =
    _activated_protocol_features manager_A ∧
  _builtin_protocol_features (popped_blocks_to 149 manager_A_B).2 =
    _builtin_protocol_features manager_A ∧
  _head_of_builtin_activation_list (popped_blocks_to 149 manager_A_B).2 =
    _head_of_builtin_activation_list manager_A.
Proof.
  assert (Hn : (149 < 150)%N) by lia.
  assert (Hrun : activate_feature digest_B 150 manager_A = (Returns tt, manager_A_B))
    by (vm_compute; reflexivity).
  split; [exact Hn|]. split; [exact Hrun|].
  apply (activate_feature_popped_blocks_to digest_B 150 149 manager_A manager_A_B
           manager_A_coherent); [|exact Hn|exact Hrun].
  intros e He. change (_activated_protocol_features manager_A)
    with [entry digest_A 100] in He.
  apply list_elem_of_singleton in He as ->. simpl. lia.
Defined.

(** Whatever the hash, as long as it tells the two features apart: the
    second feature is accepted with a dependency on the first, a built-in
    that its spec does not declare. *)
Lemma undeclared_dependency_accepted (digest : builtin_protocol_feature → digest_type) :
  digest (feature_B_on (digest feature_A)) ≠ digest feature_A →
  let catalog := with_feature digest feature_A empty_protocol_feature_set in
  let f_B := feature_B_on (digest feature_A) in
  add_feature builtin_protocol_feature_codenames digest feature_A
    empty_protocol_feature_set = (Returns (protocol_feature_of digest feature_A), catalog) ∧
  add_feature builtin_protocol_feature_codenames digest f_B catalog =
    (Returns (protocol_feature_of digest f_B), with_feature digest f_B catalog) ∧
  resolved_builtins catalog (bf_dependencies f_B) = {[ preactivate_feature ]}.
Proof.
  intros Hne catalog f_B.
  assert (Hresolved : resolved_builtins catalog (bf_dependencies f_B)
                      = {[ preactivate_feature ]}).
  { unfold resolved_builtins, catalog. simpl. rewrite lookup_insert_eq. simpl.
    set_solver. }
  assert (HA : builtin_protocol_feature_codenames !! _codename feature_A =
               Some {| codename := "PREACTIVATE_FEATURE";
                       spec_description_digest := bf_description_digest feature_A;
                       builtin_dependencies := ∅;
                       spec_subjective_restrictions :=
                         bf_subjective_restrictions feature_A |})
    by (vm_compute; reflexivity).
  assert (HB : builtin_protocol_feature_codenames !! _codename f_B =
               Some {| codename := "ONLY_LINK_TO_EXISTING_PERMISSION";
                       spec_description_digest := bf_description_digest f_B;
                       builtin_dependencies := ∅;
                       spec_subjective_restrictions := bf_subjective_restrictions f_B |})
    by (vm_compute; reflexivity).
  split_and!; [| |done].
  - apply (add_feature_accepts _ _ _ _ _ HA).
    + intros x Hx. vm_compute in Hx. discriminate.
    + constructor.
    + simpl. apply empty_subseteq.
    + apply lookup_empty.
  - apply (add_feature_accepts _ _ _ _ _ HB).
    + intros x Hx. unfold catalog in Hx. vm_compute in Hx. discriminate.
    + repeat constructor. simpl. rewrite lookup_insert_eq. eauto.
    + simpl. apply empty_subseteq.
    + simpl. rewrite lookup_insert_ne by done. apply lookup_empty.
Qed.

(** C4, as stated, fails: [add_feature] accepts a feature whose
    dependencies resolve to a built-in that its spec does not declare. *)
Lemma add_feature_builtin_dependencies_counterexample :
  add_feature builtin_protocol_feature_codenames description_as_digest feature_B catalog_A
    = (Returns recognized_B, catalog_AB) ∧
  builtin_dependencies <$>
    builtin_protocol_feature_codenames !! only_link_to_existing_permission = Some ∅ ∧
  elements (resolved_builtins catalog_A (bf_dependencies feature_B))
    = [preactivate_feature].
Proof. vm_compute. done. Qed.

(** C6, as stated, fails for a digest that is not recognized: the log is
    not empty and 99 is below its last block number, and the exception is
    the one of the unrecognized digest. *)
Lemma activate_feature_non_monotonic_counterexample :
  is_initialized manager_A = true ∧
  last (_activated_protocol_features manager_A) = Some (entry digest_A 100) ∧
  (99 < 100)%N ∧
  activate_feature 7 99 manager_A = (Throws UnrecognizedFeature, manager_A).
Proof. vm_compute. done. Qed.

Lemma activate_feature_non_monotonic_witness :
  is_initialized manager_A = true ∧
  find (_protocol_feature_set manager_A) digest_B = Some recognized_B ∧
  ((activate_feature digest_B 99 manager_A).1 = Throws NonMonotonicActivation ↔
   ∃ l, last (_activated_protocol_features manager_A) = Some l ∧
        (99 < entry_activation_block_num l)%N).
Proof.
  assert (Hinit : is_initialized manager_A = true) by (vm_compute; reflexivity).
  assert (Hfind : find (_protocol_feature_set manager_A) digest_B = Some recognized_B)
    by (vm_compute; reflexivity).
  split; [exact Hinit|]. split; [exact Hfind|].
  exact (activate_feature_non_monotonic digest_B 99 manager_A recognized_B Hinit Hfind).
Defined.

(** C7, as stated, fails twice.  With the slot of the built-in activated
    and a block number below the last entry, the exception is the
    non-monotonic one.  And an activation at the block number NOT_ACTIVE
    leaves the slot NOT_ACTIVE, so that the same digest is activated a
    second time. *)
Lemma activate_feature_already_activated_counterexample :
  (find (_protocol_feature_set manager_A) digest_A = Some recognized_A ∧
   _builtin_protocol_features manager_A !! preactivate_feature =
     Some {| previous := no_previous; activation_block_num := 100 |} ∧
   activate_feature digest_A 99 manager_A = (Throws NonMonotonicActivation, manager_A)) ∧
  ((activate_feature digest_A 4294967295 manager_0).1 = Returns tt ∧
   (activate_feature digest_A 4294967295
      (activate_feature digest_A 4294967295 manager_0).2).1 = Returns tt ∧
   _activated_protocol_features
     (activate_feature digest_A 4294967295
        (activate_feature digest_A 4294967295 manager_0).2).2
   = [entry digest_A 4294967295; entry digest_A 4294967295]).
Proof. vm_compute. done. Qed.

Lemma activate_feature_already_activated_witness :
  is_initialized manager_0 = true ∧
  find (_protocol_feature_set manager_0) digest_A = Some recognized_A ∧
  _builtin_protocol_features manager_0 !! preactivate_feature =
    Some default_builtin_protocol_feature_entry ∧
  monotone manager_0 100 ∧
  ((activate_feature digest_A 100 manager_0).1 = Throws AlreadyActivated ↔
   not_active ≠ not_active) ∧
  activate_feature digest_A 100 manager_0 = (Returns tt, manager_A) ∧
  (∀ n', ∃ x, activate_feature digest_A n' manager_A = (Throws x, manager_A) ∧
              ((100 ≤ n')%N → x = AlreadyActivated) ∧
              ((n' < 100)%N → x = NonMonotonicActivation)) ∧
  activate_feature digest_A 101 manager_A = (Throws AlreadyActivated, manager_A).
Proof.
  assert (Hinit : is_initialized manager_0 = true) by (vm_compute; reflexivity).
  assert (Hfind : find (_protocol_feature_set manager_0) digest_A = Some recognized_A)
    by (vm_compute; reflexivity).
  assert (Hslot : _builtin_protocol_features manager_0 !! preactivate_feature =
                  Some default_builtin_protocol_feature_entry)
    by (vm_compute; reflexivity).
  assert (Hmono : monotone manager_0 100)
    by (intros l Hl; vm_compute in Hl; discriminate).
  assert (Hrun : activate_feature digest_A 100 manager_0 = (Returns tt, manager_A))
    by (vm_compute; reflexivity).
  destruct (activate_feature_already_activated digest_A 100 manager_0 recognized_A
              preactivate_feature default_builtin_protocol_feature_entry
              Hinit Hfind eq_refl Hslot Hmono) as [Hfirst Hsecond].
  destruct (Hsecond eq_refl) as (m1 & Hrun1 & Hagain).
  assert (m1 = manager_A) as -> by congruence.
  assert (Hn : (100 ≠ not_active)%N) by (vm_compute; discriminate).
  split_and!; [exact Hinit|exact Hfind|exact Hslot|exact Hmono|exact Hfirst|exact Hrun|
               exact (Hagain Hn)|vm_compute; reflexivity].
Defined.

Lemma lower_bound_upper_bound_first_ordinal_witness :
  sorted_by_block (_activated_protocol_features manager_bounds) ∧
  first_ordinal (λ e, (20 ≤ entry_activation_block_num e)%N)
                (_activated_protocol_features manager_bounds)
                (lower_bound manager_bounds 20) ∧
  first_ordinal (λ e, (20 < entry_activation_block_num e)%N)
                (_activated_protocol_features manager_bounds)
                (upper_bound manager_bounds 20).
Proof.
  assert (Hs : sorted_by_block (_activated_protocol_features manager_bounds)).
  { unfold sorted_by_block. simpl. repeat constructor; simpl; lia. }
  split; [exact Hs|].
  exact (lower_bound_upper_bound_first_ordinal manager_bounds 20 Hs).
Defined.

Lemma activate_feature_atomic_on_failure_witness :
  activate_feature digest_A 101 manager_A = (Throws AlreadyActivated, manager_A) ∧
  (∃ e, @Throws unit AlreadyActivated = Throws e ∧
        e ∈ [NotInitialized; UnrecognizedFeature; NonMonotonicActivation;
             UnsupportedFeatureKind; BuiltinIndexOutOfRange; AlreadyActivated]) ∧
  _activated_protocol_features (activate_feature digest_A 101 manager_A).2 =
    _activated_protocol_features manager_A ∧
  _builtin_protocol_features (activate_feature digest_A 101 manager_A).2 =
    _builtin_protocol_features manager_A ∧
  _head_of_builtin_activation_list (activate_feature digest_A 101 manager_A).2 =
    _head_of_builtin_activation_list manager_A ∧
  (activate_feature digest_A 101 manager_A).2 = manager_A.
Proof.
  assert (Hrun : activate_feature digest_A 101 manager_A
                 = (Throws AlreadyActivated, (activate_feature digest_A 101 manager_A).2))
    by (vm_compute; reflexivity).
  split; [vm_compute; reflexivity|].
  apply (activate_feature_atomic_on_failure digest_A 101 manager_A
           (Throws AlreadyActivated) _ Hrun).
  discriminate.
Defined.

Lemma reachable_manager_coherent_witness :
  init [] (make_protocol_feature_manager catalog_AB) = (Returns tt, manager_0) ∧
  after_calls [Activate digest_A 100; Activate digest_B 150; Popped 149] manager_0
    = manager_A ∧
  coherent (after_calls [Activate digest_A 100; Activate digest_B 150; Popped 149]
              manager_0) ∧
  is_initialized (after_calls [Activate digest_A 100; Activate digest_B 150; Popped 149]
                    manager_0) = true.
Proof.
  assert (Hinit : init [] (make_protocol_feature_manager catalog_AB)
                  = (Returns tt, manager_0)) by (vm_compute; reflexivity).
  split; [exact Hinit|]. split; [vm_compute; reflexivity|].
  apply (reachable_manager_coherent catalog_AB [] manager_0
           [Activate digest_A 100; Activate digest_B 150; Popped 149]).
  - intros i Hi. rewrite catalog_AB_builtins in Hi. simpl in *. lia.
  - constructor.
  - exact Hinit.
  - repeat constructor; simpl; lia.
Defined.

Lemma popped_blocks_to_current_tip_witness :
  is_initialized manager_A_B = true ∧
  popped_blocks_to 150 manager_A_B = (Returns tt, manager_A_B).
Proof.
  assert (Hinit : is_initialized manager_A_B = true) by (vm_compute; reflexivity).
  split; [exact Hinit|].
  apply (popped_blocks_to_current_tip 150 manager_A_B manager_A_B_coherent Hinit).
  intros e He.
  change (_activated_protocol_features manager_A_B)
    with [entry digest_A 100; entry digest_B 150] in He.
  apply elem_of_cons in He as [->|He]; [simpl; lia|].
  apply list_elem_of_singleton in He as ->. simpl. lia.
Defined.

Lemma catalog_A_wf : catalog_wf builtin_protocol_feature_codenames catalog_A.
Proof.
  apply (after_adds_wf builtin_protocol_feature_codenames description_as_digest
           [feature_A] empty_protocol_feature_set), empty_protocol_feature_set_wf.
Qed.

Lemma catalog_AB_wf : catalog_wf builtin_protocol_feature_codenames catalog_AB.
Proof.
  apply (after_adds_wf builtin_protocol_feature_codenames description_as_digest
           [feature_A; feature_B] empty_protocol_feature_set), empty_protocol_feature_set_wf.
Qed.

Lemma catalog_B_wf : catalog_wf builtin_protocol_feature_codenames catalog_B.
Proof.
  apply (after_adds_wf builtin_protocol_feature_codenames description_as_digest
           [feature_B_alone] empty_protocol_feature_set), empty_protocol_feature_set_wf.
Qed.

(** The catalog of a manager is a moved one: the empty slot of the first
    built-in, which [get_builtin_digest] answers with nothing in the
    catalog as it was filled, holds [end()] of the set left behind, and
    [get_builtin_digest] dereferences it; the slot of the second built-in
    answers as before. *)
Example moved_catalog_scenario :
  get_builtin_digest catalog_B preactivate_feature = Returns None ∧
  _recognized_builtin_protocol_features
    (_protocol_feature_set (make_protocol_feature_manager catalog_B))
    = [moved_from_end; at_entry (description_as_digest feature_B_alone)] ∧
  get_builtin_digest (_protocol_feature_set (make_protocol_feature_manager catalog_B))
    preactivate_feature = Undefined ∧
  get_builtin_digest (_protocol_feature_set (make_protocol_feature_manager catalog_B))
    only_link_to_existing_permission
    = Returns (Some (description_as_digest feature_B_alone)).
Proof. vm_compute. done. Qed.

Lemma add_feature_then_lookup_witness :
  add_feature builtin_protocol_feature_codenames description_as_digest feature_A
    empty_protocol_feature_set = (Returns recognized_A, catalog_A) ∧
  get_protocol_feature catalog_A digest_A = Returns recognized_A ∧
  get_builtin_digest catalog_A preactivate_feature = Returns (Some digest_A) ∧
  is_recognized catalog_A digest_A 0 ≠ unrecognized.
Proof.
  assert (Hrun : add_feature builtin_protocol_feature_codenames description_as_digest
                   feature_A empty_protocol_feature_set = (Returns recognized_A, catalog_A))
    by (vm_compute; reflexivity).
  split; [exact Hrun|].
  exact (add_feature_then_lookup builtin_protocol_feature_codenames description_as_digest
           feature_A empty_protocol_feature_set recognized_A catalog_A 0 Hrun).
Defined.

Lemma add_feature_frame_witness :
  add_feature builtin_protocol_feature_codenames description_as_digest feature_B catalog_A
    = (Returns recognized_B, catalog_AB) ∧
  (∀ d, d ≠ description_as_digest feature_B →
        get_protocol_feature catalog_AB d = get_protocol_feature catalog_A d) ∧
  (∀ d now, d ≠ description_as_digest feature_B →
        is_recognized catalog_AB d now = is_recognized catalog_A d now) ∧
  (∀ c, c ≠ _codename feature_B →
        get_builtin_digest catalog_AB c = get_builtin_digest catalog_A c).
Proof.
  assert (Hrun : add_feature builtin_protocol_feature_codenames description_as_digest
                   feature_B catalog_A = (Returns recognized_B, catalog_AB))
    by (vm_compute; reflexivity).
  split; [exact Hrun|].
  exact (add_feature_frame builtin_protocol_feature_codenames description_as_digest
           feature_B catalog_A recognized_B catalog_AB catalog_A_wf Hrun).
Defined.

Lemma add_feature_twice_duplicate_witness :
  add_feature builtin_protocol_feature_codenames description_as_digest feature_A
    empty_protocol_feature_set = (Returns recognized_A, catalog_A) ∧
  add_feature builtin_protocol_feature_codenames description_as_digest feature_A catalog_A
    = (Throws DuplicateBuiltin, catalog_A).
Proof.
  assert (Hrun : add_feature builtin_protocol_feature_codenames description_as_digest
                   feature_A empty_protocol_feature_set = (Returns recognized_A, catalog_A))
    by (vm_compute; reflexivity).
  split; [exact Hrun|].
  exact (add_feature_twice_duplicate builtin_protocol_feature_codenames
           description_as_digest feature_A feature_A empty_protocol_feature_set
           recognized_A catalog_A Hrun eq_refl).
Defined.

Lemma get_builtin_digest_wf_witness :
  index_in_place catalog_B ∧
  _recognized_builtin_protocol_features catalog_B
    = [set_end; at_entry (description_as_digest feature_B_alone)] ∧
  ((∃ d pf, get_builtin_digest catalog_B preactivate_feature = Returns (Some d) ∧
            get_protocol_feature catalog_B d = Returns pf ∧
            builtin_feature pf = Some preactivate_feature ∧
            ∀ d' pf', _recognized_protocol_features catalog_B !! d' = Some pf' →
                      builtin_feature pf' = Some preactivate_feature → d' = d) ∨
   (get_builtin_digest catalog_B preactivate_feature = Returns None ∧
    ∀ d pf, _recognized_protocol_features catalog_B !! d = Some pf →
            builtin_feature pf ≠ Some preactivate_feature)).
Proof.
  assert (Hplace : index_in_place catalog_B)
    by (apply (bool_decide_unpack _); vm_compute; exact I).
  split; [exact Hplace|]. split; [vm_compute; reflexivity|].
  exact (get_builtin_digest_wf builtin_protocol_feature_codenames catalog_B
           preactivate_feature catalog_B_wf Hplace).
Defined.

Lemma validate_dependencies_closed_witness :
  is_recognized catalog_AB digest_B 0 ≠ unrecognized ∧
  validate_dependencies catalog_AB digest_B
    (λ x, match is_recognized catalog_AB x 0 with unrecognized => false | _ => true end)
    = true.
Proof.
  assert (Hd : is_recognized catalog_AB digest_B 0 ≠ unrecognized)
    by (vm_compute; discriminate).
  split; [exact Hd|].
  exact (validate_dependencies_closed builtin_protocol_feature_codenames catalog_AB
           digest_B 0 catalog_AB_wf Hd).
Defined.

Lemma make_default_then_add_feature_witness :
  make_default_builtin_protocol_feature table_B_declares_A
    only_link_to_existing_permission (λ _, digest_A) = Returns feature_B ∧
  ∃ f, make_default_builtin_protocol_feature table_B_declares_A
         only_link_to_existing_permission (λ _, digest_A) = Returns f ∧
       add_feature table_B_declares_A description_as_digest f catalog_A
       = (Returns (protocol_feature_of description_as_digest f),
          with_feature description_as_digest f catalog_A).
Proof.
  split; [vm_compute; reflexivity|].
  apply (make_default_then_add_feature table_B_declares_A description_as_digest
           catalog_A only_link_to_existing_permission
           {| codename := "ONLY_LINK_TO_EXISTING_PERMISSION";
              spec_description_digest := bf_description_digest feature_B;
              builtin_dependencies := {[ preactivate_feature ]};
              spec_subjective_restrictions := bf_subjective_restrictions feature_B |}
           (λ _, digest_A)).
  - vm_compute. reflexivity.
  - intros x Hx. vm_compute in Hx. discriminate.
  - intros b Hb. simpl in Hb. apply elem_of_singleton in Hb as ->.
    exists recognized_A. split; vm_compute; reflexivity.
  - intros f Hf. vm_compute in Hf. injection Hf as <-. vm_compute. reflexivity.
Defined.

Lemma reflector_init_spec_witness :
  builtin_protocol_feature_reflector_init (map_to_list builtin_protocol_feature_codenames)
    {| protocol_feature_type := "builtin";
       builtin_feature_codename := "ONLY_LINK_TO_EXISTING_PERMISSION" |}
    = inr only_link_to_existing_permission ↔
  "builtin" = feature_type_string ∧
  builtin_protocol_feature_codename builtin_protocol_feature_codenames
    only_link_to_existing_permission = Returns "ONLY_LINK_TO_EXISTING_PERMISSION".
Proof.
  apply (reflector_init_spec builtin_protocol_feature_codenames
           (map_to_list builtin_protocol_feature_codenames)).
  - reflexivity.
  - apply (bool_decide_unpack _). vm_compute. exact I.
Defined.

Lemma codename_round_trip_witness :
  let f := {| bf_description_digest := 7%N;
              bf_dependencies := [];
              bf_subjective_restrictions := bf_subjective_restrictions feature_B;
              _codename := only_link_to_existing_permission |} in
  let strings := {| protocol_feature_type := "builtin";
                    builtin_feature_codename := "ONLY_LINK_TO_EXISTING_PERMISSION" |} in
  construct_builtin_protocol_feature builtin_protocol_feature_codenames
    only_link_to_existing_permission 7 [] (bf_subjective_restrictions feature_B)
    = Returns (f, strings) ∧
  _codename f = only_link_to_existing_permission ∧
  builtin_protocol_feature_reflector_init
    (map_to_list builtin_protocol_feature_codenames) strings = inr (_codename f).
Proof.
  split; [vm_compute; reflexivity|].
  refine (codename_round_trip builtin_protocol_feature_codenames
            (map_to_list builtin_protocol_feature_codenames) _ _
            only_link_to_existing_permission 7 [] (bf_subjective_restrictions feature_B)
            _ _ _).
  - reflexivity.
  - apply (bool_decide_unpack _). vm_compute. exact I.
  - vm_compute. reflexivity.
Defined.

Lemma init_log_is_journal_witness :
  init [(digest_A, 100%N)] (make_protocol_feature_manager catalog_AB)
    = (Returns tt, manager_A) ∧
  activation_journal manager_A
    = activation_journal (make_protocol_feature_manager catalog_AB) ++ [(digest_A, 100%N)] ∧
  _protocol_feature_set manager_A = catalog_AB ∧
  length (_builtin_protocol_features manager_A) =
    length (_builtin_protocol_features (make_protocol_feature_manager catalog_AB)) ∧
  is_initialized manager_A = true.
Proof.
  assert (Hrun : init [(digest_A, 100%N)] (make_protocol_feature_manager catalog_AB)
                 = (Returns tt, manager_A)) by (vm_compute; reflexivity).
  split; [exact Hrun|].
  exact (init_log_is_journal [(digest_A, 100%N)] (make_protocol_feature_manager catalog_AB)
           manager_A Hrun).
Defined.

Lemma init_round_trip_witness :
  is_initialized manager_A_B = true ∧
  _protocol_feature_set manager_A_B = move_constructed catalog_AB ∧
  activation_journal manager_A_B = [(digest_A, 100%N); (digest_B, 150%N)] ∧
  init (activation_journal manager_A_B) (make_protocol_feature_manager catalog_AB)
    = (Returns tt, manager_A_B).
Proof.
  assert (Hinit : is_initialized manager_A_B = true) by (vm_compute; reflexivity).
  assert (Hpfs : _protocol_feature_set manager_A_B = move_constructed catalog_AB)
    by (vm_compute; reflexivity).
  split; [exact Hinit|]. split; [exact Hpfs|]. split; [vm_compute; reflexivity|].
  apply (init_round_trip catalog_AB manager_A_B manager_A_B_coherent Hinit Hpfs).
  vm_compute. reflexivity.
Defined.

Lemma popped_blocks_to_twice_witness :
  is_initialized manager_A_B = true ∧
  (popped_blocks_to 200;;; popped_blocks_to 149) manager_A_B
    = popped_blocks_to (N.min 200 149) manager_A_B.
Proof.
  assert (Hinit : is_initialized manager_A_B = true) by (vm_compute; reflexivity).
  split; [exact Hinit|].
  exact (popped_blocks_to_twice 200 149 manager_A_B manager_A_B_coherent Hinit).
Defined.

Lemma activate_feature_then_queries_witness :
  activate_feature digest_B 150 manager_A = (Returns tt, manager_A_B) ∧
  ∃ pf indx,
    find (_protocol_feature_set manager_A) digest_B = Some pf ∧
    builtin_feature pf = Some indx ∧
    (∀ h, is_builtin_activated manager_A_B indx h = (150 <=? h)%N) ∧
    (∀ c h, c ≠ indx →
            is_builtin_activated manager_A_B c h = is_builtin_activated manager_A c h) ∧
    last (_activated_protocol_features manager_A_B) = Some (entry digest_B 150) ∧
    activation_journal manager_A_B = activation_journal manager_A ++ [(digest_B, 150%N)].
Proof.
  assert (Hrun : activate_feature digest_B 150 manager_A = (Returns tt, manager_A_B))
    by (vm_compute; reflexivity).
  split; [exact Hrun|].
  exact (activate_feature_then_queries digest_B 150 manager_A manager_A_B Hrun).
Defined.



Lemma at_activation_ordinal_reads_witness :
  let it := at_activation_ordinal manager_A_B (N.of_nat 1) in
  ((N.of_nat 1 < 2 ^ 32)%N → activation_ordinal it = (Returns (N.of_nat 1), it)) ∧
  const_iterator_activation_block_num manager_A_B it
    = (Returns (entry_activation_block_num (entry digest_B 150)), it) ∧
  (coherent manager_A_B →
   ∃ pf, get_pointer manager_A_B it = Returns pf ∧
         find (_protocol_feature_set manager_A_B)
              (iterator_to_protocol_feature (entry digest_B 150)) = Some pf ∧
         is_Some (builtin_feature pf)).
Proof.
  apply (at_activation_ordinal_reads manager_A_B 1 (entry digest_B 150)).
  - vm_compute. done.
  - vm_compute. reflexivity.
Defined.

Lemma lower_bound_upper_bound_range_witness :
  entry_activation_block_num (entry digest_A 20) = 20%N ↔
  (cursor_position manager_bounds (lower_bound manager_bounds 20) ≤ N.of_nat 2
   < cursor_position manager_bounds (upper_bound manager_bounds 20))%N.
Proof.
  apply (lower_bound_upper_bound_range manager_bounds 20 2 (entry digest_A 20)).
  - unfold sorted_by_block. simpl. repeat constructor; simpl; lia.
  - vm_compute. done.
  - vm_compute. reflexivity.
Defined.

Lemma activate_feature_invariant_failures_witness :
  (activate_feature digest_A 100 manager_0).1 ≠ Throws UnsupportedFeatureKind ∧
  (activate_feature digest_A 100 manager_0).1 ≠ Throws BuiltinIndexOutOfRange.
Proof.
  apply (activate_feature_invariant_failures builtin_protocol_feature_codenames
           manager_0 digest_A 100).
  - exact catalog_AB_wf.
  - vm_compute. reflexivity.
Defined.

End Scenarios.
